(** * Job lifecycle actions of tsuru (package [job], file [job/actions.go])

    The actions of [job/actions.go] orchestrate four external collaborators:
    the job store, the quota ledgers, the user directory and the provisioning
    driver.  Each action is embedded as a program over the signature of the
    calls it makes to those collaborators; running a program against an
    arbitrary implementation of the collaborators yields the value the Go
    function returns, the final state of the collaborators, and the ordered
    trace of the calls together with what each call answered. *)

From Stdlib Require Import ZArith List Bool.
From stdpp Require Import base option strings gmap list.

Local Open Scope string_scope.
Local Open Scope list_scope.

(** ** Values shared by the packages *)

(** Go's [error] values that the actions create, compare or pass through.
    [ErrJobNotFound] and [ErrJobAlreadyExists] are the sentinels of
    [types/job]; [ErrPipelineFewParameters] is the validation error of the
    pipeline; [ErrMsg] stands for [errors.New(msg)] and for every error of a
    collaborator that the actions treat opaquely. *)
Inductive error : Type :=
  | ErrJobNotFound
  | ErrJobAlreadyExists
  | ErrPipelineFewParameters
  | ErrMsg (msg : string).

#[global] Instance error_eq_dec : EqDecision error.
Proof. solve_decision. Defined.

Module jobTypes.

(** Modelled from the spec: the struct [types/job.Job] is not part of the
    sources at hand; the record keeps the attributes the data model lists
    (unique name, owning team, owning pool, container/command spec, cron
    schedule).  The actions read [Name], [TeamOwner] and [Pool] only. *)
Record Job : Type := mkJob {
  Name : string;
  TeamOwner : string;
  Pool : string;
  Spec : string;
  Schedule : string
}.

#[global] Instance Job_eq_dec : EqDecision Job.
Proof. solve_decision. Defined.

End jobTypes.

Module authTypes.

(** Modelled from the spec: [types/auth.User] is not part of the sources at
    hand; the actions read [Email] and [FromToken] only. *)
Record User : Type := mkUser {
  Email : string;
  FromToken : bool
}.

#[global] Instance User_eq_dec : EqDecision User.
Proof. solve_decision. Defined.

End authTypes.

Import jobTypes authTypes.

(** [reflect.DeepEqual] on two dereferenced job structs. *)
Definition DeepEqual (a b : Job) : bool := bool_decide (a = b).

(** ** Calls to the collaborators *)

(** Arguments of a [log.Errorf] call. *)
Inductive LogArg : Type :=
  | LStr (s : string)
  | LErr (e : error).

(** One constructor per call the actions make outside their own package. *)
Inductive Call : Type :=
  | JobsCollection                              (* storagev2.JobsCollection() *)
  | GetByName (name : string)                   (* servicemanager.Job.GetByName *)
  | InsertOne (j : Job)                         (* collection.InsertOne *)
  | ReplaceOne (name : string) (j : Job)        (* collection.ReplaceOne({"name": name}, j) *)
  | RemoveJob (j : Job)                         (* servicemanager.Job.RemoveJob *)
  | TeamQuotaInc (team : string) (delta : Z)    (* servicemanager.TeamQuota.Inc *)
  | UserQuotaInc (u : User) (delta : Z)         (* servicemanager.UserQuota.Inc *)
  | GetUserByEmail (email : string)             (* auth.GetUserByEmail *)
  | GetProvisioner (j : Job)                    (* getProvisioner(ctx, job) *)
  | EnsureJob (j : Job)                         (* prov.EnsureJob *)
  | DestroyJob (j : Job)                        (* prov.DestroyJob *)
  | TriggerCron (j : Job) (pool : string)       (* prov.TriggerCron *)
  | UpdateJobProv (j : Job)                     (* servicemanager.Job.UpdateJobProv *)
  | LogErrorf (format : string) (args : list LogArg).

(** What a call answers.  A call returning [(v, error)] answers [inl v] when
    the error is nil and [inr e] otherwise: the collaborators return a
    non-nil pointer together with a nil error, and the actions never look at
    the pointer when the error is not nil.  A call whose only result the
    actions look at is an [error] answers [None] for nil. *)
Definition Resp (c : Call) : Type :=
  match c with
  | GetByName _ => (Job + error)%type
  | GetUserByEmail _ => (User + error)%type
  | LogErrorf _ _ => unit
  | _ => option error
  end.

(** A call paired with its answer. *)
Inductive Event : Type :=
  | Ev (c : Call) (r : Resp c).

(** ** Programs over the collaborators *)

Inductive Prog (A : Type) : Type :=
  | Ret (a : A)
  | Panic (msg : string)
  | Vis (c : Call) (k : Resp c -> Prog A).

Arguments Ret {A} a.
Arguments Panic {A} msg.
Arguments Vis {A} c k.

Fixpoint bind {A B : Type} (p : Prog A) (f : A -> Prog B) : Prog B :=
  match p with
  | Ret a => f a
  | Panic m => Panic m
  | Vis c k => Vis c (fun r => bind (k r) f)
  end.

Definition call (c : Call) : Prog (Resp c) := Vis c Ret.

Declare Scope prog_scope.
Delimit Scope prog_scope with prog.
Notation "'let*' x ':=' p 'in' q" := (bind p (fun x => q))
  (at level 10, x pattern, p at level 100, q at level 200) : prog_scope.
Local Open Scope prog_scope.

(** How a program ends: with a value, or with a Go panic. *)
Inductive Outcome (A : Type) : Type :=
  | Done (a : A)
  | Panicked (msg : string).

Arguments Done {A} a.
Arguments Panicked {A} msg.

(** [recover p] runs [p] and turns a panic into a value, as a deferred
    [recover()] does. *)
Fixpoint recover {A : Type} (p : Prog A) : Prog (Outcome A) :=
  match p with
  | Ret a => Ret (Done a)
  | Panic m => Ret (Panicked m)
  | Vis c k => Vis c (fun r => recover (k r))
  end.

(** An implementation of the collaborators over a state [W]. *)
Definition Handler (W : Type) : Type := forall c : Call, W -> Resp c * W.

(** Running a program: the outcome, the final state of the collaborators and
    the calls in the order they were made. *)
Fixpoint run {W A : Type} (h : Handler W) (p : Prog A) (w : W)
  : Outcome A * W * list Event :=
  match p with
  | Ret a => (Done a, w, [])
  | Panic m => (Panicked m, w, [])
  | Vis c k =>
      let '(r, w1) := h c w in
      let '(o, w2, t) := run h (k r) w1 in
      (o, w2, Ev c r :: t)
  end.

(** ** Reading traces *)

(** The writes to the jobs collection: [(filter name, new record)]. *)
Definition write_of (e : Event) : option (string * Job) :=
  match e with
  | Ev (ReplaceOne n j) _ => Some (n, j)
  | _ => None
  end.

Definition writes (t : list Event) : list (string * Job) := omap write_of t.

(** The inserts into the jobs collection, with the error each returned. *)
Definition insert_of (e : Event) : option (Job * option error) :=
  match e with
  | Ev c r =>
      match c return Resp c -> option (Job * option error) with
      | InsertOne j => fun r => Some (j, r)
      | _ => fun _ => None
      end r
  end.

Definition inserts (t : list Event) : list (Job * option error) := omap insert_of t.

(** The lookups by name, with what each returned. *)
Definition read_of (e : Event) : option (string * (Job + error)) :=
  match e with
  | Ev c r =>
      match c return Resp c -> option (string * (Job + error)) with
      | GetByName n => fun r => Some (n, r)
      | _ => fun _ => None
      end r
  end.

Definition reads (t : list Event) : list (string * (Job + error)) := omap read_of t.

(** The quota calls: the entity (a team name or a user) and the delta. *)
Inductive Entity : Type :=
  | TeamEntity (name : string)
  | UserEntity (u : User).

Definition quota_of (e : Event) : option (Entity * Z) :=
  match e with
  | Ev (TeamQuotaInc n d) _ => Some (TeamEntity n, d)
  | Ev (UserQuotaInc u d) _ => Some (UserEntity u, d)
  | _ => None
  end.

Definition quota_calls (t : list Event) : list (Entity * Z) := omap quota_of t.

(** The directory lookups, with what each returned. *)
Definition lookup_of (e : Event) : option (string * (User + error)) :=
  match e with
  | Ev c r =>
      match c return Resp c -> option (string * (User + error)) with
      | GetUserByEmail m => fun r => Some (m, r)
      | _ => fun _ => None
      end r
  end.

Definition lookups (t : list Event) : list (string * (User + error)) := omap lookup_of t.

(** What the calls acquiring the collection handle returned. *)
Definition handle_of (e : Event) : option (option error) :=
  match e with
  | Ev c r =>
      match c return Resp c -> option (option error) with
      | JobsCollection => fun r => Some r
      | _ => fun _ => None
      end r
  end.

Definition handle_answers (t : list Event) : list (option error) := omap handle_of t.

(** What the calls resolving the provisioner returned. *)
Definition provisioner_of (e : Event) : option (option error) :=
  match e with
  | Ev c r =>
      match c return Resp c -> option (option error) with
      | GetProvisioner _ => fun r => Some r
      | _ => fun _ => None
      end r
  end.

Definition provisioner_answers (t : list Event) : list (option error) := omap provisioner_of t.

(** The errors the store returned: from acquiring the handle, from the
    lookups by name and from the inserts. *)
Definition store_error_of (e : Event) : option error :=
  match e with
  | Ev c r =>
      match c return Resp c -> option error with
      | JobsCollection => fun r => r
      | GetByName _ => fun r => match r with inl _ => None | inr err => Some err end
      | InsertOne _ => fun r => r
      | _ => fun _ => None
      end r
  end.

Definition store_errors (t : list Event) : list error := omap store_error_of t.

(** The scheduled-trigger calls: [(job, pool)]. *)
Definition trigger_of (e : Event) : option (Job * string) :=
  match e with
  | Ev (TriggerCron j p) _ => Some (j, p)
  | _ => None
  end.

Definition triggers (t : list Event) : list (Job * string) := omap trigger_of t.

(** ** Package [action]: actions and their contexts *)

Module action.

(** [action.Result] is [interface{}]; the actions of this package produce
    nil, a job pointer or a [map[string]string]. *)
Inductive Result : Type :=
  | RNil
  | RJob (j : Job)
  | RMap (m : gmap string string).

(** The values callers put in [Params] ([[]interface{}]). *)
Inductive Param : Type :=
  | PJob (j : Job)          (* *jobTypes.Job *)
  | PUser (u : User)        (* authTypes.User *)
  | PUserPtr (u : User)     (* *authTypes.User *)
  | POther (tag : string).  (* a value of any other type *)

(** Modelled from the spec: the declarations of [FWContext], [BWContext] and
    [Action] are in package [action], outside the sources at hand; the
    fields are the ones [job/actions.go] sets and reads, with the meaning
    the data model gives them (the caller's parameters, the previous forward
    result, the action's own forward result, the declared minimum number of
    parameters; the backward operation is optional). *)
Record FWContext : Type := mkFW {
  fwParams : list Param;
  Previous : Result
}.

Record BWContext : Type := mkBW {
  bwParams : list Param;
  FWResult : Result
}.

Record Action : Type := mkAction {
  Name : string;
  Forward : FWContext -> Prog (Result * option error);
  Backward : option (BWContext -> Prog unit);
  MinParams : nat
}.

(** [Params[i]]: indexing past the end of the slice panics. *)
Definition param (ps : list Param) (i : nat) : Prog Param :=
  match ps !! i with
  | Some p => Ret p
  | None => Panic "index out of range"
  end.

(** Calling the backward operation of an action; an action that defines
    none has nothing to call. *)
Definition call_backward (a : Action) (ctx : BWContext) : Prog unit :=
  match Backward a with
  | Some bw => bw ctx
  | None => Ret tt
  end.

End action.

Import action.

(** ** Package [job]: the actions of [job/actions.go] *)

Module job.

Definition provisionJob : Action := {|
  action.Name := "provision-job";
  Forward := fun ctx =>
    let* p := param (fwParams ctx) 0 in
    match p with
    | PJob job =>
        let* perr := call (GetProvisioner job) in
        match perr with
        | Some err => Ret (RNil, Some err)
        | None =>
            let* err := call (EnsureJob job) in
            Ret (RNil, err)
        end
    | _ => Ret (RNil, Some (ErrMsg "first parameter must be *Job"))
    end;
  Backward := Some (fun ctx =>
    let* p := param (bwParams ctx) 0 in
    match p with
    | PJob job =>
        let* perr := call (GetProvisioner job) in
        match perr with
        | None => let* _ := call (DestroyJob job) in Ret tt
        | Some _ => Ret tt
        end
    | _ => Ret tt
    end);
  MinParams := 1
|}.

Definition triggerCron : Action := {|
  action.Name := "trigger-cronjob";
  Forward := fun ctx =>
    let* p := param (fwParams ctx) 0 in
    match p with
    | PJob job =>
        let* perr := call (GetProvisioner job) in
        match perr with
        | Some err => Ret (RNil, Some err)
        | None =>
            let* err := call (TriggerCron job (Pool job)) in
            Ret (RNil, err)
        end
    | _ => Ret (RNil, Some (ErrMsg "first parameter must be *Job"))
    end;
  Backward := None;
  MinParams := 1
|}.

Definition updateJobProv : Action := {|
  action.Name := "update-job";
  Forward := fun ctx =>
    let* p := param (fwParams ctx) 0 in
    match p with
    | PJob job =>
        let* err := call (UpdateJobProv job) in
        Ret (RNil, err : option error)
    | _ => Ret (RNil, Some (ErrMsg "first parameter must be *Job"))
    end;
  Backward := None;
  MinParams := 1
|}.

Definition insertJobDB (job : Job) : Prog (option error) :=
  let* cerr := call JobsCollection in
  match cerr with
  | Some err => Ret (Some err)
  | None =>
      let* r := call (GetByName (jobTypes.Name job)) in
      match r with
      | inr ErrJobNotFound => call (InsertOne job)
      | inl _ => Ret (Some ErrJobAlreadyExists)
      | inr err => Ret (Some err)
      end
  end.

Definition updateJobDB (job : Job) : Prog (option error) :=
  let* cerr := call JobsCollection in
  match cerr with
  | Some err => Ret (Some err)
  | None =>
      let* r := call (GetByName (jobTypes.Name job)) in
      match r with
      | inr err => Ret (Some err)
      | inl oldJob =>
          if DeepEqual oldJob job then Ret None
          else call (ReplaceOne (jobTypes.Name job) job)
      end
  end.

Definition jobUpdateDB : Action := {|
  action.Name := "update-job-db";
  Forward := fun ctx =>
    let* p := param (fwParams ctx) 0 in
    match p with
    | PJob j =>
        let* r := call (GetByName (jobTypes.Name j)) in
        match r with
        | inr _ =>
            let* err := updateJobDB j in
            Ret (RNil, err)
        | inl oldJob =>
            let* err := updateJobDB j in
            Ret (RJob oldJob, err)
        end
    | _ => Ret (RNil, Some (ErrMsg "first parameter must be *Job"))
    end;
  Backward := Some (fun ctx =>
    match FWResult ctx with
    | RNil => Ret tt
    | RJob oldJob =>
        let* uerr := updateJobDB oldJob in
        match uerr with
        | Some err =>
            call (LogErrorf "Error trying to rollback old job %s: %v"
                            [LStr (jobTypes.Name oldJob); LErr err])
        | None => Ret tt
        end
    | _ => Ret tt
    end);
  MinParams := 1
|}.

Definition insertJob : Action := {|
  action.Name := "insert-job";
  Forward := fun ctx =>
    let* p := param (fwParams ctx) 0 in
    match p with
    | PJob j =>
        let* ierr := insertJobDB j in
        match ierr with
        | Some err => Ret (RNil, Some err)
        | None => Ret (RJob j, None)
        end
    | _ => Ret (RNil, Some (ErrMsg "first parameter must be *Job"))
    end;
  Backward := Some (fun ctx =>
    match FWResult ctx with
    | RJob job => let* _ := call (RemoveJob job) in Ret tt
    | _ => Panic "interface conversion: interface {} is not *job.Job"
    end);
  MinParams := 1
|}.

Definition reserveTeamCronjob : Action := {|
  action.Name := "reserve-team-job";
  Forward := fun ctx =>
    let* p := param (fwParams ctx) 0 in
    match p with
    | PJob job =>
        let* qerr := call (TeamQuotaInc (TeamOwner job) 1) in
        match qerr with
        | Some err => Ret (RNil, Some err)
        | None =>
            Ret (RMap (<["team" := TeamOwner job]> {["job" := jobTypes.Name job]}), None)
        end
    | _ => Ret (RNil, Some (ErrMsg "first parameter must be *Job"))
    end;
  Backward := Some (fun ctx =>
    match FWResult ctx with
    | RMap m =>
        match m !! "team" with
        | Some teamStr => let* _ := call (TeamQuotaInc teamStr (-1)) in Ret tt
        | None => Ret tt
        end
    | _ => Panic "interface conversion: interface {} is not map[string]string"
    end);
  MinParams := 2
|}.

Definition reserveUserCronjob : Action := {|
  action.Name := "reserve-user-cronjob";
  Forward := fun ctx =>
    let* p := param (fwParams ctx) 0 in
    match p with
    | PJob job =>
        let* q := param (fwParams ctx) 1 in
        let reserve (user : User) :=
          if FromToken user then
            Ret (RMap {["job" := jobTypes.Name job]}, None)
          else
            let* qerr := call (UserQuotaInc user 1) in
            match qerr with
            | Some err => Ret (RNil, Some err)
            | None =>
                Ret (RMap (<["user" := Email user]> {["job" := jobTypes.Name job]}), None)
            end in
        match q with
        | PUser user => reserve user
        | PUserPtr user => reserve user
        | _ => Ret (RNil, Some (ErrMsg "second parameter must be auth.User or *auth.User"))
        end
    | _ => Ret (RNil, Some (ErrMsg "first parameter must be *Job"))
    end;
  Backward := Some (fun ctx =>
    match FWResult ctx with
    | RMap m =>
        match m !! "user" with
        | Some email =>
            let* r := call (GetUserByEmail email) in
            match r with
            | inl user => let* _ := call (UserQuotaInc user (-1)) in Ret tt
            | inr _ => Ret tt
            end
        | None => Ret tt
        end
    | _ => Ret tt
    end);
  MinParams := 2
|}.

End job.

(** ** A reference implementation of the collaborators

    Modelled from the spec: the job store, the quota ledgers, the user
    directory and the provisioning driver are external collaborators whose
    code is not part of the sources at hand; [sim.handler] implements the
    contracts the spec lists for them (lookup by name, insert-if-absent,
    replace-by-name, remove-by-name; increment that fails only for a positive
    delta above the ceiling; lookup of a user by email; ensure, destroy and
    trigger), with switches to make the store, the reads or the driver
    fail.  The theorems about the actions quantify over every handler; this
    one provides concrete runs. *)

Module sim.

Record World : Type := mkWorld {
  docs : list Job;              (* the jobs collection *)
  storeDown : bool;             (* JobsCollection() fails *)
  readFaults : nat;             (* lookups by name that will fail first *)
  teamUse : gmap string Z;      (* usage counter per team *)
  teamLimit : gmap string Z;    (* ceiling per team, absent = unlimited *)
  userUse : gmap string Z;      (* usage counter per user email *)
  userLimit : gmap string Z;    (* ceiling per user email *)
  users : list User;            (* the directory *)
  provDown : bool;              (* no provisioner for the pool *)
  running : list string;        (* names of the provisioned jobs *)
  fired : list (string * string); (* trigger calls: job name, pool *)
  logged : nat                  (* number of logged errors *)
}.

Definition set_docs (d : list Job) (w : World) : World :=
  mkWorld d (storeDown w) (readFaults w) (teamUse w) (teamLimit w) (userUse w)
          (userLimit w) (users w) (provDown w) (running w) (fired w) (logged w).

Definition set_readFaults (n : nat) (w : World) : World :=
  mkWorld (docs w) (storeDown w) n (teamUse w) (teamLimit w) (userUse w)
          (userLimit w) (users w) (provDown w) (running w) (fired w) (logged w).

Definition set_teamUse (m : gmap string Z) (w : World) : World :=
  mkWorld (docs w) (storeDown w) (readFaults w) m (teamLimit w) (userUse w)
          (userLimit w) (users w) (provDown w) (running w) (fired w) (logged w).

Definition set_userUse (m : gmap string Z) (w : World) : World :=
  mkWorld (docs w) (storeDown w) (readFaults w) (teamUse w) (teamLimit w) m
          (userLimit w) (users w) (provDown w) (running w) (fired w) (logged w).

Definition set_running (r : list string) (w : World) : World :=
  mkWorld (docs w) (storeDown w) (readFaults w) (teamUse w) (teamLimit w) (userUse w)
          (userLimit w) (users w) (provDown w) r (fired w) (logged w).

Definition set_fired (f : list (string * string)) (w : World) : World :=
  mkWorld (docs w) (storeDown w) (readFaults w) (teamUse w) (teamLimit w) (userUse w)
          (userLimit w) (users w) (provDown w) (running w) f (logged w).

Definition set_logged (n : nat) (w : World) : World :=
  mkWorld (docs w) (storeDown w) (readFaults w) (teamUse w) (teamLimit w) (userUse w)
          (userLimit w) (users w) (provDown w) (running w) (fired w) n.

Definition named (n : string) (j : Job) : bool := bool_decide (jobTypes.Name j = n).

(** Lookup by name: the first document with that name. *)
Definition find_job (n : string) (d : list Job) : option Job := List.find (named n) d.

(** Replace-by-name: the first document with that name is replaced. *)
Fixpoint replace_job (n : string) (j : Job) (d : list Job) : list Job :=
  match d with
  | [] => []
  | x :: rest => if named n x then j :: rest else x :: replace_job n j rest
  end.

(** The quota ledger: [Inc] fails only for a positive delta that would
    pass the ceiling. *)
Definition inc (use limit : gmap string Z) (k : string) (delta : Z)
  : option error * gmap string Z :=
  let cur := default 0%Z (use !! k) in
  match limit !! k with
  | Some l =>
      if ((0 <? delta)%Z && (l <? cur + delta)%Z)%bool
      then (Some (ErrMsg "quota exceeded"), use)
      else (None, <[k := (cur + delta)%Z]> use)
  | None => (None, <[k := (cur + delta)%Z]> use)
  end.

Definition handler : Handler World := fun c =>
  match c return World -> Resp c * World with
  | JobsCollection => fun w =>
      if storeDown w then (Some (ErrMsg "no connection"), w) else (None, w)
  | GetByName n => fun w =>
      match readFaults w with
      | S k => (inr (ErrMsg "read timeout"), set_readFaults k w)
      | O =>
          match find_job n (docs w) with
          | Some j => (inl j, w)
          | None => (inr ErrJobNotFound, w)
          end
      end
  | InsertOne j => fun w =>
      match find_job (jobTypes.Name j) (docs w) with
      | Some _ => (Some (ErrMsg "duplicate key"), w)
      | None => (None, set_docs (docs w ++ [j]) w)
      end
  | ReplaceOne n j => fun w => (None, set_docs (replace_job n j (docs w)) w)
  | RemoveJob j => fun w =>
      match find_job (jobTypes.Name j) (docs w) with
      | Some _ =>
          (None, set_docs (List.filter (fun x => negb (named (jobTypes.Name j) x)) (docs w)) w)
      | None => (Some ErrJobNotFound, w)
      end
  | TeamQuotaInc team d => fun w =>
      let '(err, m) := inc (teamUse w) (teamLimit w) team d in
      (err, set_teamUse m w)
  | UserQuotaInc u d => fun w =>
      let '(err, m) := inc (userUse w) (userLimit w) (Email u) d in
      (err, set_userUse m w)
  | GetUserByEmail e => fun w =>
      match List.find (fun u => bool_decide (Email u = e)) (users w) with
      | Some u => (inl u, w)
      | None => (inr (ErrMsg "user not found"), w)
      end
  | GetProvisioner _ => fun w =>
      if provDown w then (Some (ErrMsg "no provisioner for pool"), w) else (None, w)
  | EnsureJob j => fun w => (None, set_running (running w ++ [jobTypes.Name j]) w)
  | DestroyJob j => fun w =>
      (None, set_running (List.filter (fun n => negb (bool_decide (n = jobTypes.Name j))) (running w)) w)
  | TriggerCron j p => fun w => (None, set_fired (fired w ++ [(jobTypes.Name j, p)]) w)
  | UpdateJobProv _ => fun w => (None, w)
  | LogErrorf _ _ => fun w => (tt, set_logged (S (logged w)) w)
  end.

(** A world with one team, one user and an empty store. *)
Definition alice : User := mkUser "alice@example.com" false.
Definition robot : User := mkUser "robot@example.com" true.

Definition empty : World := {|
  docs := [];
  storeDown := false;
  readFaults := 0;
  teamUse := ∅;
  teamLimit := {["ops" := 2%Z]};
  userUse := ∅;
  userLimit := {["alice@example.com" := 2%Z]};
  users := [alice];
  provDown := false;
  running := [];
  fired := [];
  logged := 0
|}.

Definition alpha : Job := mkJob "alpha" "ops" "p1" "echo hello" "* * * * *".
Definition alpha2 : Job := mkJob "alpha" "ops" "p1" "echo bye" "0 * * * *".

End sim.

(** ** The pipeline executor *)

Module pipeline.

(** Modelled from the spec: the Pipeline Executor lives in package [action],
    which is not part of the sources at hand.  [Execute] follows section 4.1:
    before running each action the number of parameters is checked against
    the action's declared minimum, and a shortfall fails the run with a
    validation error and no compensation; the forward operations run in
    sequence, each given the original parameters and the most recent
    forward result; the first forward error stops the pass and triggers
    compensation, which calls backward, most recent first, on every action
    whose forward succeeded, each with its own recorded forward result; a
    backward call that panics is logged and the remaining ones still run;
    the error returned is the forward error. *)
Definition invoke_backward (params : list Param) (step : Action * Result) : Prog unit :=
  let* o := recover (call_backward (fst step) (mkBW params (snd step))) in
  match o with
  | Done _ => Ret tt
  | Panicked m =>
      call (LogErrorf "backward of %s failed: %s" [LStr (action.Name (fst step)); LStr m])
  end.

(** Modelled from the spec: sequential composition of the compensation
    calls (section 4.1, compensation pass). *)
Fixpoint seq_all (ps : list (Prog unit)) : Prog unit :=
  match ps with
  | [] => Ret tt
  | p :: rest => let* _ := p in seq_all rest
  end.

(** Modelled from the spec: the compensation pass over the recorded
    successes, most recent first (section 4.1). *)
Definition compensate (params : list Param) (done : list (Action * Result)) : Prog unit :=
  seq_all (map (invoke_backward params) done).

(** Modelled from the spec: the forward pass (section 4.1); [done] holds
    the actions that completed forward with their results, most recent
    first. *)
Fixpoint forward_pass (params : list Param) (acts : list Action) (prev : Result)
         (done : list (Action * Result)) : Prog (Result * option error) :=
  match acts with
  | [] => Ret (prev, None)
  | a :: rest =>
      if (length params <? MinParams a)%nat
      then Ret (RNil, Some ErrPipelineFewParameters)
      else
        let* res := Forward a (mkFW params prev) in
        match snd res with
        | Some e =>
            let* _ := compensate params done in
            Ret (RNil, Some e)
        | None => forward_pass params rest (fst res) ((a, fst res) :: done)
        end
  end.

(** Modelled from the spec: a run of the pipeline (section 4.1). *)
Definition Execute (acts : list Action) (params : list Param) : Prog (Result * option error) :=
  forward_pass params acts RNil [].

(** The forward operations of [acts] run in sequence and all succeed:
    their results in order, the last result, the state reached and the
    calls made.  [None] when a check or a forward operation fails. *)
Fixpoint forwards_ok {W : Type} (h : Handler W) (params : list Param) (acts : list Action)
         (prev : Result) (w : W) : option (list Result * Result * W * list Event) :=
  match acts with
  | [] => Some ([], prev, w, [])
  | a :: rest =>
      if (length params <? MinParams a)%nat then None
      else
        match run h (Forward a (mkFW params prev)) w with
        | (Done (r, None), w1, t1) =>
            match forwards_ok h params rest r w1 with
            | Some (rs, last, w2, t2) => Some (r :: rs, last, w2, t1 ++ t2)
            | None => None
            end
        | _ => None
        end
  end.

End pipeline.

(** ** The creation pipeline used in the concrete runs *)

(** Modelled from the spec: the composition of the creation pipeline is in
    [job/job.go], which is not part of the sources at hand; section 4.2 lists
    its steps in this order. *)
Definition creation : list Action :=
  [job.reserveTeamCronjob; job.reserveUserCronjob; job.provisionJob; job.insertJob].

(** ** The actions of the file, listed *)

(** The seven actions [job/actions.go] declares, in the order of the file. *)
Definition declared : list Action :=
  [job.provisionJob; job.triggerCron; job.updateJobProv; job.jobUpdateDB;
   job.insertJob; job.reserveTeamCronjob; job.reserveUserCronjob].

(** ** Package [provision]: the data of [tsuru.yaml] *)

Module provision.

(** [ErrProcessNotFound], created once with [errors.New]. *)
Definition ErrProcessNotFound : error :=
  ErrMsg "process name could not be found on YAML data".

Record TsuruYamlRestartHooks : Type := mkRestartHooks {
  Before : list string;
  After : list string
}.

Record TsuruYamlHooks : Type := mkHooks {
  Restart : TsuruYamlRestartHooks;
  Build : list string
}.

Record TsuruYamlHealthcheck : Type := mkHealthcheck {
  Headers : gmap string string;
  Path : string;
  Scheme : string;
  HealthcheckCommand : list string;      (* field [Command] *)
  AllowedFailures : Z;
  IntervalSeconds : Z;
  TimeoutSeconds : Z;
  DeployTimeoutSeconds : Z;
  ForceRestart : bool
}.

Record TsuruYamlProcess : Type := mkProcess {
  ProcessHealthcheck : option TsuruYamlHealthcheck;   (* field [Healthcheck], a pointer *)
  ProcessName : string;                               (* field [Name] *)
  ProcessCommand : string                             (* field [Command] *)
}.

Record TsuruYamlKubernetesProcessPortConfig : Type := mkPortConfig {
  PortName : string;                                  (* field [Name] *)
  Protocol : string;
  Port : Z;
  TargetPort : Z
}.

Record TsuruYamlKubernetesProcessConfig : Type := mkProcessConfig {
  Ports : list TsuruYamlKubernetesProcessPortConfig
}.

(** [TsuruYamlKubernetesGroup] is [map[string]TsuruYamlKubernetesProcessConfig]. *)
Abbreviation TsuruYamlKubernetesGroup := (gmap string TsuruYamlKubernetesProcessConfig).

(** [Groups] is a map that may be nil: [None] is the nil map. *)
Record TsuruYamlKubernetesConfig : Type := mkKubernetesConfig {
  Groups : option (gmap string TsuruYamlKubernetesGroup)
}.

Record TsuruYamlData : Type := mkData {
  Hooks : option TsuruYamlHooks;
  Healthcheck : option TsuruYamlHealthcheck;
  Kubernetes : option TsuruYamlKubernetesConfig;
  Processes : list TsuruYamlProcess
}.

(** A [for k, v := range m] loop visits the entries of [m] once each, in an
    order Go leaves unspecified: [l] is one such order. *)
Definition ranges {V : Type} (m : gmap string V) (l : list (string * V)) : Prop :=
  l ≡ₚ map_to_list m.

(** The loop of [DeepCopyInto], over the entries of [in.Groups] in the order
    [order]: [out.Groups[k] = v]. *)
Definition copy_entries (order : list (string * TsuruYamlKubernetesGroup))
           (into : gmap string TsuruYamlKubernetesGroup)
  : gmap string TsuruYamlKubernetesGroup :=
  fold_left (fun m kv => <[kv.1 := kv.2]> m) order into.

(** [in.DeepCopyInto(out)]: the value of [out] afterwards; [order] is the
    order in which the loop visits [in.Groups]. *)
Definition DeepCopyInto (in_ out : TsuruYamlKubernetesConfig)
           (order : list (string * TsuruYamlKubernetesGroup))
  : TsuruYamlKubernetesConfig :=
  match Groups in_ with
  | None => out
  | Some _ =>
      let made :=
        match Groups out with
        | None => ∅
        | Some g => g
        end in
      mkKubernetesConfig (Some (copy_entries order made))
  end.

(** [in.DeepCopy()]. *)
Definition DeepCopy (in_ : TsuruYamlKubernetesConfig)
           (order : list (string * TsuruYamlKubernetesGroup))
  : TsuruYamlKubernetesConfig :=
  DeepCopyInto in_ (mkKubernetesConfig None) order.

(** The loop of [GetHCFromProcessName] over [y.Processes]. *)
Fixpoint hc_of_process (ps : list TsuruYamlProcess) (process : string)
  : option TsuruYamlHealthcheck * option error :=
  match ps with
  | [] => (None, Some ErrProcessNotFound)
  | tsuruProcessData :: rest =>
      if String.eqb (ProcessName tsuruProcessData) process
      then (ProcessHealthcheck tsuruProcessData, None)
      else hc_of_process rest process
  end.

(** [y.GetHCFromProcessName(process)]: the pointer returned ([None] for
    nil) and the error. *)
Definition GetHCFromProcessName (y : TsuruYamlData) (process : string)
  : option TsuruYamlHealthcheck * option error :=
  hc_of_process (Processes y) process.

(** The inner loop of [GetProcessConfigs] over one group, in the order
    [l]. *)
Fixpoint config_in_group (l : list (string * TsuruYamlKubernetesProcessConfig))
         (procName : string) : option TsuruYamlKubernetesProcessConfig :=
  match l with
  | [] => None
  | (p, proc) :: rest =>
      if String.eqb p procName then Some proc else config_in_group rest procName
  end.

(** The outer loop of [GetProcessConfigs]: the groups in the order
    [outer], the entries of the group under the key [k] in the order
    [inner k]. *)
Fixpoint config_in_groups (outer : list (string * TsuruYamlKubernetesGroup))
         (inner : string -> list (string * TsuruYamlKubernetesProcessConfig))
         (procName : string) : option TsuruYamlKubernetesProcessConfig :=
  match outer with
  | [] => None
  | (k, _) :: rest =>
      match config_in_group (inner k) procName with
      | Some proc => Some proc
      | None => config_in_groups rest inner procName
      end
  end.

(** [y.GetProcessConfigs(procName)] for the visiting orders [outer] and
    [inner]; [None] is the nil pointer. *)
Definition GetProcessConfigs (outer : list (string * TsuruYamlKubernetesGroup))
           (inner : string -> list (string * TsuruYamlKubernetesProcessConfig))
           (procName : string) : option TsuruYamlKubernetesProcessConfig :=
  config_in_groups outer inner procName.

(** The visiting orders [outer] and [inner] are orders of the loops of
    [GetProcessConfigs] on [y]; a nil [Groups] is not visited at all. *)
Definition visits (y : TsuruYamlKubernetesConfig)
           (outer : list (string * TsuruYamlKubernetesGroup))
           (inner : string -> list (string * TsuruYamlKubernetesProcessConfig)) : Prop :=
  ranges (default ∅ (Groups y)) outer /\
  forall k g, default ∅ (Groups y) !! k = Some g -> ranges g (inner k).

End provision.

(** ** Programs over the calls of a package

    The same construction as [Prog], for any set of calls: [Op] lists the
    calls a package makes to the outside and [Ans] what each one answers. *)

Inductive Free (Op : Type) (Ans : Op -> Type) (A : Type) : Type :=
  | Pure (a : A)
  | Fail (msg : string)
  | Do (o : Op) (k : Ans o -> Free Op Ans A).

Arguments Pure {Op Ans A} a.
Arguments Fail {Op Ans A} msg.
Arguments Do {Op Ans A} o k.

Fixpoint fbind {Op : Type} {Ans : Op -> Type} {A B : Type}
         (p : Free Op Ans A) (f : A -> Free Op Ans B) : Free Op Ans B :=
  match p with
  | Pure a => f a
  | Fail m => Fail m
  | Do o k => Do o (fun r => fbind (k r) f)
  end.

Definition perform {Op : Type} {Ans : Op -> Type} (o : Op) : Free Op Ans (Ans o) :=
  Do o Pure.

Declare Scope free_scope.
Delimit Scope free_scope with free.
Notation "'let+' x ':=' p 'in' q" := (fbind p (fun x => q))
  (at level 10, x pattern, p at level 100, q at level 200) : free_scope.

(** A call paired with its answer. *)
Definition did {Op : Type} {Ans : Op -> Type} (o : Op) (a : Ans o) : sigT Ans :=
  existT o a.

(** Running a program against an implementation [h] of the calls: the
    outcome, the final state of the outside and the calls in order. *)
Fixpoint frun {Op : Type} {Ans : Op -> Type} {W A : Type}
         (h : forall o : Op, W -> Ans o * W) (p : Free Op Ans A) (w : W)
  : Outcome A * W * list (sigT Ans) :=
  match p with
  | Pure a => (Done a, w, [])
  | Fail m => (Panicked m, w, [])
  | Do o k =>
      let '(r, w1) := h o w in
      let '(res, w2, t) := frun h (k r) w1 in
      (res, w2, did o r :: t)
  end.

(** The calls of a trace, without their answers. *)
Definition calls {Op : Type} {Ans : Op -> Type} (t : list (sigT Ans)) : list Op :=
  map (@projT1 Op Ans) t.

(** ** Package [storagev2]: the connection to the database *)

Module storagev2.

Local Open Scope free_scope.

Definition DefaultDatabaseURL : string := "mongodb://127.0.0.1:27017".
Definition DefaultDatabaseName : string := "tsuru".

(** [strconv.Itoa] of the pool sizes and the timeouts in milliseconds
    ([defaultServerSelectionTimeout] is 10 s, [defaultSocketTimeout] 30 s). *)
Definition defaultMaxPoolSize : string := "100".
Definition defaultMinPoolSize : string := "2".
Definition defaultServerSelectionTimeoutMS : string := "10000".
Definition defaultSocketTimeoutMS : string := "30000".

(** Errors of the driver, and [errors.Wrap(err, msg)]. *)
Inductive derror : Type :=
  | Driver (msg : string)
  | Wrap (cause : derror) (msg : string).

(** [url.Values]: [map[string][]string]. *)
Abbreviation Values := (gmap string (list string)).

(** What [url.Parse] returns, as far as [dbConfig] looks into it: the path,
    the query (what [Query()] parses out of [RawQuery]), and the rest of the
    URL. *)
Record URL : Type := mkURL {
  Rest : string;
  Path : string;
  Query : Values
}.

(** A connected [*mongo.Client]; the number tells the clients apart. *)
Definition Client : Type := nat.

Inductive Op : Type :=
  | ConfigGetString (key : string)                   (* config.GetString, error dropped *)
  | UrlParse (raw : string)                          (* url.Parse, nil on error *)
  | UrlString (u : URL)                              (* RawQuery = query.Encode(); String() *)
  | MongoConnect (uri : string)                      (* mongo.Connect(ctx, clientOpts) *)
  | Ping (c : Client)                                (* connectedClient.Ping *)
  | EnsureIndexesCreated (c : Client) (db : string). (* EnsureIndexesCreated(client.Database(db)) *)

Definition Ans (o : Op) : Type :=
  match o with
  | ConfigGetString _ => string
  | UrlParse _ => option URL
  | UrlString _ => string
  | MongoConnect _ => (Client + derror)%type
  | Ping _ => option derror
  | EnsureIndexesCreated _ _ => option derror
  end.

Abbreviation IO := (Free Op Ans).

Definition ask (o : Op) : IO (Ans o) := perform o.

(** [query.Has(key)] and [query.Set(key, value)]. *)
Definition Has (q : Values) (key : string) : bool := bool_decide (is_Some (q !! key)).
Definition Set_ (q : Values) (key value : string) : Values := <[key := [value]]> q.

(** [if !query.Has(key) { query.Set(key, value) }]. *)
Definition setDefault (key value : string) (q : Values) : Values :=
  if negb (Has q key) then Set_ q key value else q.

(** The connection parameters [dbConfig] adds when the URL does not set
    them, with the values it gives them. *)
Definition queryDefaults : list (string * string) :=
  [("maxPoolSize", defaultMaxPoolSize);
   ("minPoolSize", defaultMinPoolSize);
   ("serverSelectionTimeoutMS", defaultServerSelectionTimeoutMS);
   ("connectTimeoutMS", defaultServerSelectionTimeoutMS);
   ("socketTimeoutMS", defaultSocketTimeoutMS);
   ("retryWrites", "true");
   ("retryReads", "true")].

(** The package variables [client] and [databaseNamePtr]. *)
Record State : Type := mkState {
  client : option Client;
  databaseNamePtr : option string
}.

Definition Reset (s : State) : State := mkState None None.

Definition dbConfig : IO (string * string) :=
  let+ uri := ask (ConfigGetString "database:url") in
  let uri := if String.eqb uri "" then DefaultDatabaseURL else uri in
  let uri := if negb (String.prefix "mongodb://" uri) then String.append "mongodb://" uri else uri in
  let+ parsed := ask (UrlParse uri) in
  match parsed return IO (string * string) with
  | None => Fail "invalid memory address or nil pointer dereference"
  | Some uriParsed =>
      let path := if String.eqb (Path uriParsed) "" then "/" else Path uriParsed in
      let query := Query uriParsed in
      let query := setDefault "maxPoolSize" defaultMaxPoolSize query in
      let query := setDefault "minPoolSize" defaultMinPoolSize query in
      let query := setDefault "serverSelectionTimeoutMS" defaultServerSelectionTimeoutMS query in
      let query := setDefault "connectTimeoutMS" defaultServerSelectionTimeoutMS query in
      let query := setDefault "socketTimeoutMS" defaultSocketTimeoutMS query in
      let query := setDefault "retryWrites" "true" query in
      let query := setDefault "retryReads" "true" query in
      let+ rendered := ask (UrlString (mkURL (Rest uriParsed) path query)) in
      let+ dbname := ask (ConfigGetString "database:name") in
      let dbname := if String.eqb dbname "" then DefaultDatabaseName else dbname in
      Pure ((rendered : string), dbname)
  end.

(** [connect()]: the client and the database name, or the error; and the
    package variables afterwards. *)
Definition connect (s : State) : IO ((Client * string + derror) * State) :=
  let+ cfg := dbConfig in
  let uri := fst cfg in
  let databaseName := snd cfg in
  let+ dialed := ask (MongoConnect uri) in
  match dialed with
  | inr err => Pure (inr err, s)
  | inl connectedClient =>
      let+ pinged := ask (Ping connectedClient) in
      match pinged with
      | Some err => Pure (inr (Wrap err "failed to ping mongodb"), s)
      | None =>
          let swapped := bool_decide (client s = None) in
          let s1 := mkState (if swapped then Some connectedClient else client s)
                            (Some databaseName) in
          if swapped then
            let+ indexed := ask (EnsureIndexesCreated connectedClient databaseName) in
            match indexed with
            | Some err => Pure (inr (Wrap err "failed to create indexes"), s1)
            | None => Pure (inl (connectedClient, databaseName), s1)
            end
          else Pure (inl (connectedClient, databaseName), s1)
      end
  end.

(** [database()]: the handle is a client and a database name. *)
Definition database (s : State) : IO ((Client * string + derror) * State) :=
  match client s, databaseNamePtr s with
  | Some connectedClient, Some databaseName =>
      Pure (inl (connectedClient, databaseName), s)
  | _, _ =>
      let+ r := connect s in
      match fst r with
      | inr err => Pure (inr err, snd r)
      | inl (connectedClient, databaseName) =>
          Pure (inl (connectedClient, databaseName), snd r)
      end
  end.

(** [Collection(name)]: the handle is a database handle and the name. *)
Definition Collection (name : string) (s : State)
  : IO ((Client * string * string + derror) * State) :=
  let+ r := database s in
  match fst r with
  | inr err => Pure (inr err, snd r)
  | inl db => Pure (inl (db, name), snd r)
  end.

End storagev2.

(** ** A reference outside for [storagev2]

    A configuration, a URL parser and a database server reduced to
    switches, to run the package on concrete inputs. *)

Module simdb.

Import storagev2.

Record World : Type := mkWorld {
  urlSetting : string;      (* database:url, empty when unset *)
  nameSetting : string;     (* database:name, empty when unset *)
  parses : bool;            (* url.Parse succeeds *)
  reachable : bool;         (* mongo.Connect succeeds *)
  pingable : bool;          (* Ping succeeds *)
  indexable : bool;         (* EnsureIndexesCreated succeeds *)
  dialed : nat              (* clients handed out so far *)
}.

Definition handler (o : Op) : World -> Ans o * World :=
  match o return World -> Ans o * World with
  | ConfigGetString key => fun w =>
      (if String.eqb key "database:url" then urlSetting w
       else if String.eqb key "database:name" then nameSetting w
       else "", w)
  | UrlParse raw => fun w =>
      (if parses w then Some (mkURL raw "" ∅) else None, w)
  | UrlString u => fun w => (String.append (Rest u) (Path u), w)
  | MongoConnect _ => fun w =>
      if reachable w
      then (inl (dialed w),
            mkWorld (urlSetting w) (nameSetting w) (parses w) (reachable w)
                    (pingable w) (indexable w) (S (dialed w)))
      else (inr (Driver "no reachable servers"), w)
  | Ping _ => fun w =>
      (if pingable w then None else Some (Driver "ping timeout"), w)
  | EnsureIndexesCreated _ _ => fun w =>
      (if indexable w then None else Some (Driver "index build failed"), w)
  end.

(** Nothing configured, everything up. *)
Definition fresh : World := mkWorld "" "" true true true true 0.

End simdb.

(** ** Package [cmd]: login and logout of the command line client *)

Module cmd.

Local Open Scope free_scope.

(** Errors: [errors.New(msg)] and the errors of the libraries. *)
Inductive cerror : Type :=
  | Err (msg : string).

(** The error of [filesystem().Remove], as far as [os.IsNotExist] tells. *)
Inductive fserror : Type :=
  | NotExist
  | OtherFailure (msg : string).

Definition IsNotExist (e : fserror) : bool :=
  match e with
  | NotExist => true
  | OtherFailure _ => false
  end.

Record loginScheme : Type := mkScheme {
  Name : string;
  Data : gmap string string
}.

Record login : Type := mkLogin {
  scheme : option loginScheme      (* nil until the scheme is known *)
}.

Record Info : Type := mkInfo {
  InfoName : string;               (* field [Name] *)
  Usage : string;
  Desc : string;
  MinArgs : Z
}.

(** An [io.Reader]: an [*os.File] with its descriptor, or anything else. *)
Inductive Reader : Type :=
  | File (fd : Z)
  | NotAFile (id : nat).

Record Context : Type := mkContext {
  Args : list string;
  Stdin : Reader
}.

(** An [*http.Request]. *)
Record Request : Type := mkRequest {
  method : string;
  target : string;
  payload : string
}.

(** A response body; the number tells the responses apart. *)
Definition Body : Type := nat.

(** A decoded JSON value, as far as the type assertion to [string] tells. *)
Inductive JValue : Type :=
  | JString (s : string)
  | JOther.

Inductive Op : Type :=
  | GetURL (path : string)
  | HttpGet (url : string)                         (* http.Get(url) *)
  | DecodeScheme (b : Body)                        (* json.NewDecoder(resp.Body).Decode(&info) *)
  | Close (b : Body)                               (* the deferred Body.Close() *)
  | Fprint (text : string)                         (* fmt.Fprint(context.Stdout, text) *)
  | Fprintln (text : string)                       (* fmt.Fprintln(context.Stdout, text) *)
  | IsTerminal (fd : Z)                            (* terminal.IsTerminal *)
  | ReadPassword (fd : Z)                          (* terminal.ReadPassword *)
  | Fscanf (r : Reader)                            (* fmt.Fscanf(reader, "%s\n", &password) *)
  | NewRequest (m url body : string)               (* http.NewRequest *)
  | ClientDo (req : option Request)                (* client.Do(request) *)
  | ReadAll (b : Body)                             (* ioutil.ReadAll(response.Body) *)
  | Unmarshal (data : string)                      (* json.Unmarshal(result, &out) *)
  | WriteToken (token : string)                    (* writeToken *)
  | OauthLogin                                     (* c.oauthLogin(context, client) *)
  | JoinWithUserDir (name : string)
  | Remove (path : string).                        (* filesystem().Remove *)

Definition Ans (o : Op) : Type :=
  match o with
  | GetURL _ => (string + cerror)%type
  | HttpGet _ => (Body + cerror)%type
  | DecodeScheme _ => (loginScheme + cerror)%type
  | Close _ => unit
  | Fprint _ => unit
  | Fprintln _ => unit
  | IsTerminal _ => bool
  | ReadPassword _ => (string + cerror)%type
  | Fscanf _ => string           (* what was scanned, empty when nothing was; the error is dropped *)
  | NewRequest _ _ _ => (Request + cerror)%type
  | ClientDo _ => (Body + cerror)%type
  | ReadAll _ => (string + cerror)%type
  | Unmarshal _ => (gmap string JValue + cerror)%type
  | WriteToken _ => option cerror
  | OauthLogin => option cerror
  | JoinWithUserDir _ => string
  | Remove _ => option fserror
  end.

Abbreviation IO := (Free Op Ans).

Definition ask (o : Op) : IO (Ans o) := perform o.

(** The double quote character. *)
Definition dq : string := String (Ascii.ascii_of_nat 34) EmptyString.

(** The end of [passwordFromReader]: an empty password is an error. *)
Definition checked (password : string) : IO (string * option cerror) :=
  if Nat.eqb (String.length password) 0
  then Pure (EmptyString, Some (Err "You must provide the password!"))
  else Pure (password, None).

Definition passwordFromReader (reader : Reader) : IO (string * option cerror) :=
  let scan : IO (string * option cerror) :=
    let+ password := ask (Fscanf reader) in
    checked password in
  match reader with
  | File fd =>
      let+ isTerminal := ask (IsTerminal fd) in
      if (isTerminal : bool) then
        let+ r := ask (ReadPassword fd) in
        match r return IO (string * option cerror) with
        | inr err => Pure (EmptyString, Some err)
        | inl password => checked password
        end
      else scan
  | NotAFile _ => scan
  end.

Definition schemeInfo : IO (loginScheme + cerror) :=
  let+ u := ask (GetURL "/auth/scheme") in
  match u return IO (loginScheme + cerror) with
  | inr err => Pure (inr err)
  | inl url =>
      let+ resp := ask (HttpGet url) in
      match resp return IO (loginScheme + cerror) with
      | inr err => Pure (inr err)
      | inl body =>
          let+ info := ask (DecodeScheme body) in
          let+ _ := ask (Close body) in
          match info return IO (loginScheme + cerror) with
          | inr err => Pure (inr err)
          | inl i => Pure (inl i)
          end
      end
  end.

(** [c.getScheme()]: the scheme, and the receiver afterwards. *)
Definition getScheme (c : login) : IO (loginScheme * login) :=
  match scheme c with
  | Some s => Pure (s, c)
  | None =>
      let+ info := schemeInfo in
      let s := match info with
               | inr _ => mkScheme "native" ∅
               | inl i => i
               end in
      Pure (s, mkLogin (Some s))
  end.

(** [c.Info()]. *)
Definition login_Info (c : login) : IO (Info * login) :=
  let+ r := getScheme c in
  let oauth := String.eqb (Name (fst r)) "oauth" in
  let usage := if oauth then "login" else "login <email>" in
  let args := if oauth then 0%Z else 1%Z in
  Pure (mkInfo "login" usage "log in with your credentials." args, snd r).

(** The request body of [nativeLogin]: the password between the two
    literals, as it is. *)
Definition passwordJSON (password : string) : string :=
  String.append "{" (String.append dq (String.append "password"
    (String.append dq (String.append ":" (String.append dq
      (String.append password (String.append dq "}"))))))).

Definition nativeLogin (context : Context) : IO (option cerror) :=
  match Args context with
  | [] => Fail "index out of range"
  | email :: _ =>
      let+ _ := ask (Fprint "Password: ") in
      let+ p := passwordFromReader (Stdin context) in
      match snd p return IO (option cerror) with
      | Some err => Pure (Some err)
      | None =>
          let password := fst p in
          let+ _ := ask (Fprintln EmptyString) in
          let+ u := ask (GetURL (String.append "/users/" (String.append email "/tokens"))) in
          match u return IO (option cerror) with
          | inr err => Pure (Some err)
          | inl url =>
              let+ rq := ask (NewRequest "POST" url (passwordJSON password)) in
              match rq return IO (option cerror) with
              | inr err => Pure (Some err)
              | inl request =>
                  let+ rs := ask (ClientDo (Some request)) in
                  match rs return IO (option cerror) with
                  | inr err => Pure (Some err)
                  | inl body =>
                      let+ rd := ask (ReadAll body) in
                      match rd return IO (option cerror) with
                      | inr err => let+ _ := ask (Close body) in Pure (Some err)
                      | inl result =>
                          let+ um := ask (Unmarshal result) in
                          match um return IO (option cerror) with
                          | inr err => let+ _ := ask (Close body) in Pure (Some err)
                          | inl out =>
                              let+ _ := ask (Fprintln "Successfully logged in!") in
                              match out !! "token" return IO (option cerror) with
                              | Some (JString token) =>
                                  let+ werr := ask (WriteToken token) in
                                  let+ _ := ask (Close body) in
                                  Pure werr
                              | _ =>
                                  let+ _ := ask (Close body) in
                                  Fail "interface conversion: interface {} is not string"
                              end
                          end
                      end
                  end
              end
          end
      end
  end.

(** [c.Run(context, client)] of [login]. *)
Definition login_Run (c : login) (context : Context) : IO (option cerror * login) :=
  let+ r := getScheme c in
  if String.eqb (Name (fst r)) "oauth"
  then let+ e := ask OauthLogin in Pure ((e : option cerror), snd r)
  else let+ e := nativeLogin context in Pure (e, snd r).

(** [c.Run(context, client)] of [logout]. *)
Definition logout_Run : IO (option cerror) :=
  let+ u := ask (GetURL "/users/tokens") in
  let+ _ :=
    match u return IO unit with
    | inl url =>
        let+ rq := ask (NewRequest "DELETE" url EmptyString) in
        let request := match rq with
                       | inl request => Some request
                       | inr _ => None
                       end in
        let+ _ := ask (ClientDo request) in
        Pure tt
    | inr _ => Pure tt
    end in
  let+ path := ask (JoinWithUserDir ".tsuru_token") in
  let+ err := ask (Remove path) in
  match err return IO (option cerror) with
  | Some e =>
      if IsNotExist e
      then Pure (Some (Err "You're not logged in!"))
      else let+ _ := ask (Fprintln "Successfully logged out!") in Pure None
  | None => let+ _ := ask (Fprintln "Successfully logged out!") in Pure None
  end.

End cmd.

(** ** A reference outside for [cmd]

    A server, a terminal and a token file reduced to switches, to run the
    commands on concrete inputs. *)

Module simcli.

Import cmd.

Record World : Type := mkWorld {
  up : bool;                    (* the server answers *)
  offered : loginScheme;        (* the scheme the server announces *)
  typed : string;               (* what the user types as password *)
  terminal : bool;              (* standard input is a terminal *)
  issued : option string;       (* the token in the server's answer, if any *)
  readOnly : bool;              (* the token file cannot be removed *)
  stored : option string;       (* the token file *)
  printed : list string         (* what was printed *)
}.

Definition print (text : string) (w : World) : World :=
  mkWorld (up w) (offered w) (typed w) (terminal w) (issued w) (readOnly w) (stored w)
          (printed w ++ [text]).

Definition store (token : option string) (w : World) : World :=
  mkWorld (up w) (offered w) (typed w) (terminal w) (issued w) (readOnly w) token
          (printed w).

Definition handler (o : Op) : World -> Ans o * World :=
  match o return World -> Ans o * World with
  | GetURL path => fun w => (inl (String.append "http://tsuru.example.com" path), w)
  | HttpGet _ => fun w =>
      (if up w then inl 0%nat else inr (Err "connection refused"), w)
  | DecodeScheme _ => fun w => (inl (offered w), w)
  | Close _ => fun w => (tt, w)
  | Fprint text => fun w => (tt, print text w)
  | Fprintln text => fun w => (tt, print text w)
  | IsTerminal _ => fun w => (terminal w, w)
  | ReadPassword _ => fun w => (inl (typed w), w)
  | Fscanf _ => fun w => (typed w, w)
  | NewRequest m url body => fun w => (inl (mkRequest m url body), w)
  | ClientDo _ => fun w =>
      (if up w then inl 1%nat else inr (Err "connection refused"), w)
  | ReadAll _ => fun w => (inl "response", w)
  | Unmarshal _ => fun w =>
      (inl (match issued w with
            | Some token => {["token" := JString token]}
            | None => {["message" := JString "denied"]}
            end), w)
  | WriteToken token => fun w => (None, store (Some token) w)
  | OauthLogin => fun w => (None, w)
  | JoinWithUserDir name => fun w => (String.append "/home/user/" name, w)
  | Remove _ => fun w =>
      if readOnly w then (Some (OtherFailure "permission denied"), w)
      else match stored w with
           | Some _ => (None, store None w)
           | None => (Some NotExist, w)
           end
  end.


End simcli.

(** * Properties *)

(** ** Running composed programs *)

Section Running.

Context {W : Type} (h : Handler W).

Lemma run_bind {A B : Type} (p : Prog A) (f : A -> Prog B) (w : W) :
  run h (bind p f) w =
  match run h p w with
  | (Done a, w1, t1) =>
      let '(o, w2, t2) := run h (f a) w1 in (o, w2, t1 ++ t2)
  | (Panicked m, w1, t1) => (Panicked m, w1, t1)
  end.
Proof.
  revert w. induction p as [a | m | c k IH]; intros w; simpl.
  - destruct (run h (f a) w) as [[o w2] t2]. reflexivity.
  - reflexivity.
  - destruct (h c w) as [r w1]. rewrite IH.
    destruct (run h (k r) w1) as [[[a | m] w2] t1]; [| reflexivity].
    destruct (run h (f a) w2) as [[o w3] t2]. reflexivity.
Qed.

Lemma run_recover {A : Type} (p : Prog A) (w : W) :
  run h (recover p) w =
  let '(o, w1, t) := run h p w in (Done o, w1, t).
Proof.
  revert w. induction p as [a | m | c k IH]; intros w; simpl; try reflexivity.
  destruct (h c w) as [r w1]. rewrite IH.
  destruct (run h (k r) w1) as [[o w2] t]. reflexivity.
Qed.

Lemma run_call (c : Call) (w : W) :
  run h (call c) w = (Done (fst (h c w)), snd (h c w), [Ev c (fst (h c w))]).
Proof. unfold call. simpl. destruct (h c w). reflexivity. Qed.

(** A compensation call never panics, whatever the backward operation does. *)
Lemma run_invoke_backward (params : list Param) (step : Action * Result) (w : W) :
  exists w1 t, run h (pipeline.invoke_backward params step) w = (Done tt, w1, t).
Proof.
  unfold pipeline.invoke_backward.
  rewrite run_bind, run_recover.
  destruct (run h (call_backward _ _) w) as [[[[] | m] w1] t]; simpl.
  - eauto.
  - destruct (h _ w1) as [[] w2]. eauto.
Qed.

Lemma run_seq_all_backwards (params : list Param) (steps : list (Action * Result)) (w : W) :
  exists w1 t,
    run h (pipeline.seq_all (map (pipeline.invoke_backward params) steps)) w = (Done tt, w1, t).
Proof.
  revert w. induction steps as [| s rest IH]; intros w; simpl; [eauto |].
  rewrite run_bind.
  destruct (run_invoke_backward params s w) as (w1 & t1 & ->).
  destruct (IH w1) as (w2 & t2 & ->). eauto.
Qed.

Lemma forwards_ok_length (params : list Param) (acts : list Action) :
  forall prev w rs last w1 t1,
    pipeline.forwards_ok h params acts prev w = Some (rs, last, w1, t1) ->
    length rs = length acts.
Proof.
  induction acts as [| a rest IH]; intros prev w rs last w1 t1 H; simpl in H.
  - inversion H. reflexivity.
  - destruct (length params <? MinParams a)%nat; [discriminate |].
    destruct (run h _ w) as [[[[r [e |]] | m] w2] t2]; try discriminate.
    destruct (pipeline.forwards_ok h params rest r w2) as [[[[rs' last'] w3] t3] |] eqn:E;
      [| discriminate].
    inversion H; subst. simpl. f_equal. eapply IH. exact E.
Qed.

(** The forward pass over [pre ++ a :: post] when the forwards of [pre] succeed and
    the forward of [a] fails: the compensation runs over the successes of
    [pre], most recent first, followed by what was recorded before. *)
Lemma forward_pass_failure (params : list Param) (a : Action) (post : list Action) :
  forall pre prev done w rs last w1 t1 r e w2 t2,
    pipeline.forwards_ok h params pre prev w = Some (rs, last, w1, t1) ->
    (MinParams a <= length params)%nat ->
    run h (Forward a (mkFW params last)) w1 = (Done (r, Some e), w2, t2) ->
    run h (pipeline.forward_pass params (pre ++ a :: post) prev done) w =
    let '(o, w3, t3) :=
      run h (pipeline.compensate params (rev (combine pre rs) ++ done)) w2 in
    (match o with Done _ => Done (RNil, Some e) | Panicked m => Panicked m end,
     w3, t1 ++ t2 ++ t3).
Proof.
  induction pre as [| b pre IH]; intros prev done w rs last w1 t1 r e w2 t2 Hok Hmin Hfail.
  - simpl in Hok. inversion Hok; subst. simpl.
    destruct (Nat.ltb_spec (length params) (MinParams a)) as [Hlt | _]; [lia |].
    rewrite run_bind, Hfail. simpl. rewrite run_bind.
    destruct (run h (pipeline.compensate params done) w2) as [[[[] | m] w3] t3];
      simpl; rewrite ?app_nil_r; reflexivity.
  - simpl in Hok. simpl.
    destruct (length params <? MinParams b)%nat; [discriminate |].
    rewrite run_bind.
    destruct (run h (Forward b _) w) as [[[[rb [eb |]] | m] wb] tb]; try discriminate.
    destruct (pipeline.forwards_ok h params pre rb wb) as [[[[rs' last'] w'] t'] |] eqn:E;
      [| discriminate].
    inversion Hok; subst. simpl.
    rewrite (IH rb ((b, rb) :: done) wb rs' last w1 t' r e w2 t2 E Hmin Hfail).
    rewrite <- (app_assoc (rev (combine pre rs')) [(b, rb)] done). simpl.
    destruct (run h _ w2) as [[o w3] t3].
    rewrite <- !app_assoc. reflexivity.
Qed.

Lemma run_Vis {A : Type} (c : Call) (k : Resp c -> Prog A) (w : W) :
  run h (Vis c k) w =
  let '(r, w1) := h c w in
  let '(o, w2, t) := run h (k r) w1 in (o, w2, Ev c r :: t).
Proof. reflexivity. Qed.

Lemma run_Vis_inv {A : Type} (c : Call) (k : Resp c -> Prog A) (w : W) o w' t :
  run h (Vis c k) w = (o, w', t) ->
  exists r w1 t1, h c w = (r, w1) /\ t = Ev c r :: t1 /\ run h (k r) w1 = (o, w', t1).
Proof.
  simpl. destruct (h c w) as [r w1].
  destruct (run h (k r) w1) as [[o1 w2] t1] eqn:E.
  intros H. inversion H; subst. exists r, w1, t1. auto.
Qed.

End Running.

(** Case analysis of a run along the calls the program makes. *)
Ltac run_inv :=
  repeat match goal with
  | H : run _ (Ret _) _ = _ |- _ => simpl in H; inversion H; subst; clear H
  | H : run _ (Panic _) _ = _ |- _ => simpl in H; inversion H; subst; clear H
  | H : run _ (Vis _ _) _ = _ |- _ =>
      apply run_Vis_inv in H;
      let r := fresh "r" in
      let w := fresh "w" in
      let t := fresh "t" in
      let Hh := fresh "Hh" in
      destruct H as (r & w & t & Hh & -> & H); cbn -[run] in H
  | H : run _ (call _) _ = _ |- _ => unfold call in H
  | H : run _ (bind _ _) _ = _ |- _ => progress cbn -[run] in H
  | H : run _ ?p _ = _ |- _ =>
      match p with
      | context [match ?x with _ => _ end] => is_var x; destruct x
      | context [bool_decide ?P] => destruct (bool_decide_reflect P)
      end
  end.

(** From here on [Name] is the name of a job. *)
Import jobTypes.

(** ** Compensation order *)

(** C1.  For every pipeline [pre ++ a :: post] and failure point
    [k = length pre + 1]: when the forward operations of the steps [1..k-1]
    succeed with the results [rs] and the forward operation of step [k]
    returns the error [e], the run of the pipeline consists of those forward
    calls followed by exactly the backward calls of the steps [k-1, ..., 1],
    one per step, each with that step's own forward result, and nothing
    else: the backward operation of step [k] (and of the steps after it) is
    not called.  The run returns [e]. *)
Theorem forward_failure_compensates_in_reverse :
  forall (W : Type) (h : Handler W) (params : list Param)
         (pre : list Action) (a : Action) (post : list Action)
         (w : W) (rs : list Result) (last : Result) (w1 : W) (t1 : list Event)
         (r : Result) (e : error) (w2 : W) (t2 : list Event),
    pipeline.forwards_ok h params pre RNil w = Some (rs, last, w1, t1) ->
    (MinParams a <= length params)%nat ->
    run h (Forward a (mkFW params last)) w1 = (Done (r, Some e), w2, t2) ->
    length rs = length pre /\
    exists (w3 : W) (t3 : list Event),
      run h (pipeline.seq_all
               (map (fun s => pipeline.invoke_backward params s) (rev (combine pre rs)))) w2
      = (Done tt, w3, t3) /\
      run h (pipeline.Execute (pre ++ a :: post) params) w
      = (Done (RNil, Some e), w3, t1 ++ t2 ++ t3).
Proof.
  intros W h params pre a post w rs last w1 t1 r e w2 t2 Hok Hmin Hfail.
  split; [eapply forwards_ok_length; exact Hok |].
  destruct (run_seq_all_backwards h params (rev (combine pre rs)) w2) as (w3 & t3 & Hbw).
  exists w3, t3. split; [exact Hbw |].
  unfold pipeline.Execute.
  rewrite (forward_pass_failure h params a post pre RNil [] w rs last w1 t1 r e w2 t2 Hok Hmin Hfail).
  rewrite app_nil_r. unfold pipeline.compensate. rewrite Hbw. reflexivity.
Qed.

(** Creating [alpha] while a record named [alpha] is stored: the fourth step
    fails with already-exists, and the calls made are the three forward
    operations, the failed insert, then destroy, the user's decrement and
    the team's decrement. *)
Lemma forward_failure_compensates_in_reverse_witness :
  let w := sim.set_docs [sim.alpha] sim.empty in
  let params := [PJob sim.alpha; PUser sim.alice] in
  exists (w3 : sim.World) (t : list Event),
    run sim.handler (pipeline.Execute creation params) w
    = (Done (RNil, Some ErrJobAlreadyExists), w3, t) /\
    quota_calls t = [(TeamEntity "ops", 1%Z); (UserEntity sim.alice, 1%Z);
                     (UserEntity sim.alice, (-1)%Z); (TeamEntity "ops", (-1)%Z)] /\
    sim.running w3 = [] /\
    sim.teamUse w3 !! "ops" = Some 0%Z /\
    sim.userUse w3 !! "alice@example.com" = Some 0%Z.
Proof.
  intros w params.
  destruct (forward_failure_compensates_in_reverse
              sim.World sim.handler params
              [job.reserveTeamCronjob; job.reserveUserCronjob; job.provisionJob]
              job.insertJob [] w
              _ _ _ _ _ _ _ _
              ltac:(vm_compute; reflexivity)
              ltac:(vm_compute; lia)
              ltac:(vm_compute; reflexivity))
    as (_ & w3 & t3 & Hbw & Hrun).
  vm_compute in Hbw. inversion Hbw; subst w3 t3; clear Hbw.
  eexists _, _. split; [exact Hrun |].
  vm_compute. repeat split; reflexivity.
Defined.

(** ** The store step of the update pipeline *)

(** Closing a goal that is a disjunction of cases by the first case that
    holds. *)
Ltac pick_case :=
  first [ solve [eauto 10] | left; pick_case | right; pick_case ].

(** A run of [updateJobDB], by what the store answered. *)
Lemma run_updateJobDB_cases :
  forall (W : Type) (h : Handler W) (w w' : W) (j : Job) o t,
    run h (job.updateJobDB j) w = (o, w', t) ->
    (exists e, handle_answers t = [Some e] /\ reads t = [] /\ writes t = [] /\
               o = Done (Some e)) \/
    (exists e, handle_answers t = [None] /\ reads t = [(Name j, inr e)] /\ writes t = [] /\
               o = Done (Some e)) \/
    (handle_answers t = [None] /\ reads t = [(Name j, inl j)] /\ writes t = [] /\
     o = Done None) \/
    (exists old err, handle_answers t = [None] /\ reads t = [(Name j, inl old)] /\
                     old <> j /\ writes t = [(Name j, j)] /\ o = Done err).
Proof.
  intros W h w w' j o t H.
  unfold job.updateJobDB, DeepEqual in H. cbn -[run] in H.
  run_inv; subst; cbn; pick_case.
Qed.

(** A run of the forward operation of the update-store step whose own
    read fails, by what [updateJobDB] met afterwards. *)
Lemma run_jobUpdateDB_read_failure :
  forall (W : Type) (h : Handler W) (w w' : W) (j : Job) (ps : list Param)
         (prev : Result) o t (e : error) (rest : list (string * (Job + error))),
    run h (Forward job.jobUpdateDB (mkFW (PJob j :: ps) prev)) w = (o, w', t) ->
    reads t = (Name j, inr e) :: rest ->
    exists err : option error,
      o = Done (RNil, err) /\
      ((exists old, rest = [(Name j, inl old)] /\ old <> j /\ writes t = [(Name j, j)]) \/
       (rest = [(Name j, inl j)] /\ writes t = [] /\ err = None) \/
       (exists e1, rest = [(Name j, inr e1)] /\ writes t = [] /\ err = Some e1) \/
       (exists ce, rest = [] /\ handle_answers t = [Some ce] /\ writes t = [] /\
                   err = Some ce)).
Proof.
  intros W h w w' j ps prev o t e rest H Hreads.
  unfold job.jobUpdateDB, job.updateJobDB, DeepEqual in H. cbn -[run] in H.
  run_inv; subst; cbn in Hreads; inversion Hreads; subst; cbn;
    (eexists; split; [reflexivity |]); pick_case.
Qed.

(** C2, as stated, fails: on a store that holds no record named [alpha],
    the step's read fails, the read inside [updateJobDB] fails too, and the
    step returns that read error without issuing any write. *)
Lemma update_read_failure_still_writes_counterexample :
  ~ (forall (W : Type) (h : Handler W) (w w' : W) (j : Job) (ps : list Param)
            (prev : Result) o t (e : error) (rest : list (string * (Job + error))),
        run h (Forward job.jobUpdateDB (mkFW (PJob j :: ps) prev)) w = (o, w', t) ->
        reads t = (Name j, inr e) :: rest ->
        writes t <> []).
Proof.
  intros Hall.
  apply (Hall sim.World sim.handler sim.empty sim.empty sim.alpha [] RNil
               (Done (RNil, Some ErrJobNotFound))
               [Ev (GetByName "alpha") (inr ErrJobNotFound);
                Ev JobsCollection None;
                Ev (GetByName "alpha") (inr ErrJobNotFound)]
               ErrJobNotFound [("alpha", inr ErrJobNotFound)]).
  - vm_compute. reflexivity.
  - reflexivity.
  - reflexivity.
Qed.

(** C2, amended.  When the step's own read of the current record fails, the
    step drops that error and runs [updateJobDB], which acquires the
    collection and reads the record again.  The write of the new record is
    issued exactly when this second read returns a record that differs from
    the new one; when the second read fails, its error is returned and no
    write is issued; the recorded forward result is nil in every case. *)
Theorem update_read_failure_rereads_before_write :
  forall (W : Type) (h : Handler W) (w w' : W) (j : Job) (ps : list Param)
         (prev : Result) o t (e : error) (rest : list (string * (Job + error))),
    run h (Forward job.jobUpdateDB (mkFW (PJob j :: ps) prev)) w = (o, w', t) ->
    reads t = (Name j, inr e) :: rest ->
    exists err : option error,
      o = Done (RNil, err) /\
      ((exists old, rest = [(Name j, inl old)] /\ old <> j /\ writes t = [(Name j, j)]) \/
       (rest = [(Name j, inl j)] /\ writes t = [] /\ err = None) \/
       (exists e1, rest = [(Name j, inr e1)] /\ writes t = [] /\ err = Some e1) \/
       (exists ce, rest = [] /\ handle_answers t = [Some ce] /\ writes t = [] /\
                   err = Some ce)).
Proof.
  intros W h w w' j ps prev o t e rest H Hreads.
  exact (run_jobUpdateDB_read_failure W h w w' j ps prev o t e rest H Hreads).
Qed.

(** A transient failure of the first read only: the second read finds the
    stored record, which differs, and the write is issued. *)
Lemma update_read_failure_rereads_before_write_witness :
  let w := sim.set_readFaults 1 (sim.set_docs [sim.alpha] sim.empty) in
  exists (w' : sim.World) (t : list Event),
    run sim.handler (Forward job.jobUpdateDB (mkFW [PJob sim.alpha2] RNil)) w
    = (Done (RNil, None), w', t) /\
    writes t = [("alpha", sim.alpha2)] /\
    sim.docs w' = [sim.alpha2].
Proof.
  intros w.
  destruct (update_read_failure_rereads_before_write
              sim.World sim.handler w _ sim.alpha2 [] RNil _ _ _ _
              ltac:(vm_compute; reflexivity)
              ltac:(vm_compute; reflexivity))
    as (err & Ho & _).
  eexists _, _. split; [vm_compute; reflexivity |].
  split; reflexivity.
Defined.

(** C3.  For every job record [j]: when every read of [j]'s name made by
    the update-store step returns a record identical to [j], the step issues
    no write, and, the collection handle being acquired, returns success;
    and whenever the step issues a write, it is the single replacement of
    [j]'s name by [j], made after a read that returned a record different
    from [j]. *)
Theorem update_identical_record_issues_no_write :
  forall (W : Type) (h : Handler W) (w w' : W) (j : Job) (ps : list Param)
         (prev : Result) o t,
    run h (Forward job.jobUpdateDB (mkFW (PJob j :: ps) prev)) w = (o, w', t) ->
    (Forall (fun rd => rd = (Name j, inl j)) (reads t) ->
     writes t = [] /\
     (handle_answers t = [None] -> o = Done (RJob j, None))) /\
    (writes t <> [] ->
     exists (r0 : Job + error) (old : Job),
       reads t = [(Name j, r0); (Name j, inl old)] /\ old <> j /\
       writes t = [(Name j, j)]).
Proof.
  intros W h w w' j ps prev o t H.
  unfold job.jobUpdateDB, job.updateJobDB, DeepEqual in H. cbn -[run] in H.
  run_inv; subst; cbn; split.
  all: try (intros Hw; exfalso; apply Hw; reflexivity).
  all: try (intros Hw; solve [eauto 10]).
  all: intros Hall.
  all: repeat match goal with
              | Hf : Forall _ (_ :: _) |- _ => inversion Hf; subst; clear Hf
              end.
  all: repeat match goal with
              | Heq : (_, _) = (_, _) |- _ => inversion Heq; subst; clear Heq
              end.
  all: try congruence.
  all: split; [reflexivity | intros Hacq; try discriminate Hacq; reflexivity].
Qed.

(** Updating [alpha] with the record that is stored: three calls (read,
    handle, read), no write, success, and the collection is unchanged. *)
Lemma update_identical_record_issues_no_write_witness :
  let w := sim.set_docs [sim.alpha] sim.empty in
  exists (t : list Event),
    run sim.handler (Forward job.jobUpdateDB (mkFW [PJob sim.alpha] RNil)) w
    = (Done (RJob sim.alpha, None), w, t) /\
    length t = 3%nat /\
    writes t = [].
Proof.
  intros w.
  pose proof (update_identical_record_issues_no_write
                sim.World sim.handler w _ sim.alpha [] RNil _ _
                ltac:(vm_compute; reflexivity)) as [Hsame _].
  destruct Hsame as [Hw Ho].
  - vm_compute. repeat constructor.
  - eexists. split; [vm_compute; reflexivity |]. split; [reflexivity | exact Hw].
Defined.

(** C9.  When the forward operation of the update-store step could not
    read the prior record, the result it records is nil; and with a recorded
    result that is nil or not a job record the backward operation makes no
    call at all: nothing is restored and the collaborators are left as they
    are. *)
Theorem update_backward_without_prior_record_is_noop :
  forall (W : Type) (h : Handler W) (w : W) (params : list Param) (r : Result),
    (forall old, r <> RJob old) ->
    run h (call_backward job.jobUpdateDB (mkBW params r)) w = (Done tt, w, []) /\
    (forall (w' : W) (j : Job) (ps : list Param) (prev : Result) o t e rest,
        run h (Forward job.jobUpdateDB (mkFW (PJob j :: ps) prev)) w = (o, w', t) ->
        reads t = (Name j, inr e) :: rest ->
        exists err, o = Done (RNil, err)).
Proof.
  intros W h w params r Hr. split.
  - destruct r as [| old | m]; try reflexivity.
    exfalso. apply (Hr old). reflexivity.
  - intros w' j ps prev o t e rest H Hreads.
    destruct (run_jobUpdateDB_read_failure W h w w' j ps prev o t e rest H Hreads)
      as (err & Ho & _).
    eauto.
Qed.

(** With a nil result the backward operation leaves the rewritten record in
    place. *)
Lemma update_backward_without_prior_record_is_noop_witness :
  let w := sim.set_docs [sim.alpha2] sim.empty in
  run sim.handler (call_backward job.jobUpdateDB (mkBW [PJob sim.alpha2] RNil)) w
  = (Done tt, w, []).
Proof.
  intros w.
  apply (update_backward_without_prior_record_is_noop
           sim.World sim.handler w [PJob sim.alpha2] RNil).
  intros old. discriminate.
Defined.

(** ** The reference store *)

Lemma find_job_name (n : string) (d : list Job) (x : Job) :
  sim.find_job n d = Some x -> Name x = n.
Proof.
  unfold sim.find_job. intros H. apply find_some in H as [_ H].
  unfold sim.named in H. apply bool_decide_eq_true in H. exact H.
Qed.

Lemma find_job_replace (n : string) (j : Job) (d : list Job) (x : Job) :
  Name j = n -> sim.find_job n d = Some x ->
  sim.find_job n (sim.replace_job n j d) = Some j.
Proof.
  intros Hj. unfold sim.find_job. induction d as [| y d IH]; simpl; [discriminate |].
  destruct (sim.named n y) eqn:E; simpl.
  - intros _. unfold sim.named. rewrite bool_decide_eq_true_2 by exact Hj. reflexivity.
  - rewrite E. exact IH.
Qed.

Lemma replace_job_back (n : string) (j : Job) (d : list Job) (x : Job) :
  Name j = n -> sim.find_job n d = Some x ->
  sim.replace_job n x (sim.replace_job n j d) = d.
Proof.
  intros Hj. unfold sim.find_job. induction d as [| y d IH]; simpl; [discriminate |].
  destruct (sim.named n y) eqn:E; simpl.
  - intros H. inversion H; subst. unfold sim.named at 1.
    rewrite bool_decide_eq_true_2 by reflexivity. reflexivity.
  - rewrite E. intros H. rewrite IH by exact H. reflexivity.
Qed.

Lemma replace_job_same (n : string) (d : list Job) (x : Job) :
  sim.find_job n d = Some x -> sim.replace_job n x d = d.
Proof.
  unfold sim.find_job. induction d as [| y d IH]; simpl; [discriminate |].
  destruct (sim.named n y) eqn:E; simpl.
  - intros H. inversion H; subst. reflexivity.
  - intros H. rewrite IH by exact H. reflexivity.
Qed.

Ltac sim_step := cbn -[sim.find_job sim.replace_job].

(** On a reachable store that holds a record under [j]'s name, [updateJobDB]
    succeeds and leaves [j] in its place. *)
Lemma sim_updateJobDB (w : sim.World) (j old : Job) :
  sim.storeDown w = false -> sim.readFaults w = 0%nat ->
  sim.find_job (Name j) (sim.docs w) = Some old ->
  exists t,
    run sim.handler (job.updateJobDB j) w
    = (Done None, sim.set_docs (sim.replace_job (Name j) j (sim.docs w)) w, t).
Proof.
  intros Hdown Hfaults Hfind.
  destruct w as [d sd rf tu tl uu ul us pd rn fi lg]. simpl in *. subst sd rf.
  unfold job.updateJobDB, DeepEqual. sim_step. rewrite Hfind. sim_step.
  destruct (bool_decide_reflect (old = j)) as [-> | Hne]; sim_step.
  - rewrite (replace_job_same _ _ _ Hfind). eauto.
  - eauto.
Qed.

(** C7.  The backward operation of the update-store step, given the record
    [old] that its forward operation recorded: on every implementation of
    the collaborators it never panics, writes nothing but [old] under
    [old]'s name, and does write it whenever the record it reads differs
    from [old]; on the reference store, after a forward operation that
    replaced [old] by [j], it puts the store back exactly as it was. *)
Theorem update_backward_restores_prior_record :
  forall (params : list Param) (old : Job),
    (forall (W : Type) (h : Handler W) (w w' : W) o t,
        run h (call_backward job.jobUpdateDB (mkBW params (RJob old))) w = (o, w', t) ->
        o = Done tt /\
        (writes t = [] \/ writes t = [(Name old, old)]) /\
        (forall cur, reads t = [(Name old, inl cur)] -> cur <> old ->
                     writes t = [(Name old, old)])) /\
    (forall (w : sim.World) (j : Job) (ps : list Param) (prev : Result),
        sim.storeDown w = false -> sim.readFaults w = 0%nat ->
        sim.find_job (Name j) (sim.docs w) = Some old ->
        exists (w1 : sim.World) (t1 t2 : list Event),
          run sim.handler (Forward job.jobUpdateDB (mkFW (PJob j :: ps) prev)) w
          = (Done (RJob old, None), w1, t1) /\
          sim.find_job (Name j) (sim.docs w1) = Some j /\
          run sim.handler (call_backward job.jobUpdateDB (mkBW params (RJob old))) w1
          = (Done tt, w, t2)).
Proof.
  intros params old. split.
  - intros W h w w' o t H.
    unfold call_backward, job.jobUpdateDB, job.updateJobDB, DeepEqual in H.
    cbn -[run] in H.
    run_inv; subst; cbn;
      repeat match goal with
             | u : Resp (LogErrorf _ _) |- _ => cbn in u; destruct u
             end;
      (split; [reflexivity |]); (split; [auto |]);
      intros cur Hcur Hne; inversion Hcur; subst; congruence.
  - intros w j ps prev Hdown Hfaults Hfind.
    pose proof (find_job_name _ _ _ Hfind) as Hname.
    destruct (sim_updateJobDB w j old Hdown Hfaults Hfind) as (t1 & Hfw).
    set (w1 := sim.set_docs (sim.replace_job (Name j) j (sim.docs w)) w) in *.
    assert (Hfind1 : sim.find_job (Name old) (sim.docs w1) = Some j).
    { rewrite Hname. apply (find_job_replace _ _ _ _ eq_refl Hfind). }
    destruct (sim_updateJobDB w1 old j Hdown Hfaults Hfind1) as (t2 & Hbw).
    exists w1. eexists _, _. split; [| split].
    + unfold job.jobUpdateDB. cbn -[run job.updateJobDB sim.find_job].
      rewrite run_Vis. cbn [sim.handler]. rewrite Hfaults, Hfind.
      rewrite run_bind, Hfw. reflexivity.
    + rewrite <- Hname. exact Hfind1.
    + unfold call_backward, job.jobUpdateDB. cbn -[run job.updateJobDB].
      rewrite run_bind, Hbw. cbn.
      rewrite Hname, (replace_job_back _ _ _ _ eq_refl Hfind).
      destruct w; reflexivity.
Qed.

(** Replacing the stored [alpha] and then compensating puts [alpha] back. *)
Lemma update_backward_restores_prior_record_witness :
  let w := sim.set_docs [sim.alpha] sim.empty in
  exists (w1 : sim.World) (t1 t2 : list Event),
    run sim.handler (Forward job.jobUpdateDB (mkFW [PJob sim.alpha2] RNil)) w
    = (Done (RJob sim.alpha, None), w1, t1) /\
    sim.find_job "alpha" (sim.docs w1) = Some sim.alpha2 /\
    run sim.handler (call_backward job.jobUpdateDB (mkBW [PJob sim.alpha2] (RJob sim.alpha))) w1
    = (Done tt, w, t2).
Proof.
  intros w.
  apply (proj2 (update_backward_restores_prior_record [PJob sim.alpha2] sim.alpha)
               w sim.alpha2 [] RNil);
    vm_compute; reflexivity.
Defined.

(** The update-store step followed by a step that fails: the insert of a
    record whose name is taken fails with already-exists, the executor calls
    the backward operation of the update-store step with the record that
    step recorded, and the store holds [alpha] again. *)
Example update_then_failure_restores_store :
  let w := sim.set_docs [sim.alpha] sim.empty in
  exists (t : list Event),
    run sim.handler (pipeline.Execute [job.jobUpdateDB; job.insertJob] [PJob sim.alpha2]) w
    = (Done (RNil, Some ErrJobAlreadyExists), w, t) /\
    writes t = [("alpha", sim.alpha2); ("alpha", sim.alpha)].
Proof.
  intros w. eexists. split; vm_compute; reflexivity.
Qed.

(** ** The persist step of the creation pipeline *)

(** C4.  The persist-to-store step, on every implementation of the
    collaborators: when the lookup of the job's name finds a record, the
    step fails with already-exists and inserts nothing; conversely, provided
    the errors the store itself returned are not that sentinel, the step
    fails with already-exists only when the lookup found a record; a lookup
    failing with anything but not-found has its error returned and nothing
    is inserted; and the record is inserted exactly when the lookup reported
    not-found, the step then returning what the insert returned. *)
Theorem insert_fails_iff_record_present :
  forall (W : Type) (h : Handler W) (w w' : W) (j : Job) (ps : list Param)
         (prev : Result) o t,
    run h (Forward job.insertJob (mkFW (PJob j :: ps) prev)) w = (o, w', t) ->
    (forall old, In (Name j, inl old) (reads t) ->
                 o = Done (RNil, Some ErrJobAlreadyExists) /\ inserts t = []) /\
    (~ In ErrJobAlreadyExists (store_errors t) ->
     o = Done (RNil, Some ErrJobAlreadyExists) ->
     exists old, reads t = [(Name j, inl old)]) /\
    (forall e, In (Name j, inr e) (reads t) -> e <> ErrJobNotFound ->
               o = Done (RNil, Some e) /\ inserts t = []) /\
    (In (Name j, inr ErrJobNotFound) (reads t) ->
     exists ierr, inserts t = [(j, ierr)] /\
                  o = Done (match ierr with
                            | Some e => (RNil, Some e)
                            | None => (RJob j, None)
                            end)) /\
    (inserts t <> [] -> reads t = [(Name j, inr ErrJobNotFound)]).
Proof.
  intros W h w w' j ps prev o t H.
  unfold job.insertJob, job.insertJobDB in H. cbn -[run] in H.
  run_inv; subst; cbn.
  all: (split; [| split; [| split; [| split]]]); intros; cbn in *.
  all: repeat match goal with
              | H : _ \/ _ |- _ => destruct H
              | H : False |- _ => destruct H
              | H : (_, _) = (_, _) |- _ => inversion H; subst; clear H
              | H : Done _ = Done _ |- _ => inversion H; subst; clear H
              end.
  all: try solve [eauto | congruence | exfalso; eauto].
Qed.

(** Inserting [alpha] into a store that already holds a record named
    [alpha]: already-exists, and no insert. *)
Lemma insert_fails_iff_record_present_witness :
  let w := sim.set_docs [sim.alpha] sim.empty in
  exists (t : list Event),
    run sim.handler (Forward job.insertJob (mkFW [PJob sim.alpha2] RNil)) w
    = (Done (RNil, Some ErrJobAlreadyExists), w, t) /\
    inserts t = [].
Proof.
  intros w.
  pose proof (insert_fails_iff_record_present
                sim.World sim.handler w _ sim.alpha2 [] RNil _ _
                ltac:(vm_compute; reflexivity)) as (Hfound & _).
  destruct (Hfound sim.alpha ltac:(vm_compute; auto)) as [Ho Hi].
  eexists. split; [vm_compute; reflexivity | exact Hi].
Defined.

(** ** The quota reservation steps *)

(** C5.  For every acting user marked as derived from a team token, passed
    by value or by pointer: the forward operation of the user-quota step
    makes no call at all (so no quota increment), leaves the collaborators
    as they are, and returns a map that holds the job's name and no ["user"]
    key; and given any recorded map without a ["user"] key, that one
    included, the backward operation makes no call either (so no quota
    decrement). *)
Theorem token_user_reserves_nothing :
  forall (W : Type) (h : Handler W) (w : W) (j : Job) (u : User) (q : Param)
         (ps : list Param) (prev : Result),
    FromToken u = true ->
    q = PUser u \/ q = PUserPtr u ->
    let m : gmap string string := {["job" := Name j]} in
    run h (Forward job.reserveUserCronjob (mkFW (PJob j :: q :: ps) prev)) w
    = (Done (RMap m, None), w, []) /\
    m !! "user" = None /\
    (forall (params : list Param) (w0 : W) (m0 : gmap string string),
        m0 !! "user" = None ->
        run h (call_backward job.reserveUserCronjob (mkBW params (RMap m0))) w0
        = (Done tt, w0, [])).
Proof.
  intros W h w j u q ps prev Htok Hq m. split; [| split].
  - destruct Hq as [-> | ->]; cbn; rewrite Htok; reflexivity.
  - reflexivity.
  - intros params w0 m0 Hm0. unfold call_backward. cbn. rewrite Hm0. reflexivity.
Qed.

(** The token user [robot] creates [alpha]: no call, no ["user"] key, and
    the compensation of the step makes no call. *)
Lemma token_user_reserves_nothing_witness :
  let m : gmap string string := {["job" := "alpha"]} in
  run sim.handler
      (Forward job.reserveUserCronjob (mkFW [PJob sim.alpha; PUserPtr sim.robot] RNil))
      sim.empty
  = (Done (RMap m, None), sim.empty, []) /\
  run sim.handler
      (call_backward job.reserveUserCronjob (mkBW [PJob sim.alpha; PUserPtr sim.robot] (RMap m)))
      sim.empty
  = (Done tt, sim.empty, []).
Proof.
  intros m.
  destruct (token_user_reserves_nothing
              sim.World sim.handler sim.empty sim.alpha sim.robot (PUserPtr sim.robot) [] RNil
              ltac:(reflexivity) ltac:(right; reflexivity))
    as (Hfw & Hkey & Hbw).
  split; [exact Hfw |].
  apply Hbw. exact Hkey.
Defined.

(** C6.  The backward operations of the two reservation steps, on every
    implementation of the collaborators and for every recorded result.
    Team step: with a map holding a ["team"] key, the only quota call is one
    decrement by one of that team; with a map without the key, or a result
    that is not a map, no call is made.  User step: with a map holding a
    ["user"] key, the email is resolved by the directory and the only quota
    call is one decrement by one of the user the directory returned for that
    email (none when the directory fails); with a map without the key, or a
    result that is not a map, no call is made. *)
Theorem backward_decrements_recorded_entity_by_one :
  forall (W : Type) (h : Handler W) (w w' : W) (params : list Param) (r : Result) o t,
    (run h (call_backward job.reserveTeamCronjob (mkBW params r)) w = (o, w', t) ->
     match r with
     | RMap m =>
         o = Done tt /\
         match m !! "team" with
         | Some team => quota_calls t = [(TeamEntity team, (-1)%Z)] /\ length t = 1%nat
         | None => t = []
         end
     | _ => t = []
     end) /\
    (run h (call_backward job.reserveUserCronjob (mkBW params r)) w = (o, w', t) ->
     o = Done tt /\
     match r with
     | RMap m =>
         match m !! "user" with
         | Some email =>
             exists ans,
               lookups t = [(email, ans)] /\
               quota_calls t = match ans with
                               | inl u => [(UserEntity u, (-1)%Z)]
                               | inr _ => []
                               end
         | None => t = []
         end
     | _ => t = []
     end).
Proof.
  intros W h w w' params r o t. split; intros H.
  - unfold call_backward in H. cbn -[run] in H.
    destruct r as [| old | m]; cbn -[run] in H.
    + run_inv. reflexivity.
    + run_inv. reflexivity.
    + destruct (m !! "team") as [team |]; run_inv; cbn; auto.
  - unfold call_backward in H. cbn -[run] in H.
    destruct r as [| old | m]; cbn -[run] in H.
    + run_inv. auto.
    + run_inv. auto.
    + destruct (m !! "user") as [email |]; run_inv; cbn; eauto.
Qed.

(** Team [ops] is charged for [alpha]: the backward operation, given the
    recorded map, makes one call, the decrement of team [ops], and the
    counter is back at zero. *)
Lemma backward_decrements_recorded_entity_by_one_witness :
  let params := [PJob sim.alpha; PUser sim.alice] in
  let r := RMap (<["team" := "ops"]> {["job" := "alpha"]}) in
  let w1 := sim.set_teamUse {["ops" := 1%Z]} sim.empty in
  exists (w2 : sim.World) (t2 : list Event),
    run sim.handler (call_backward job.reserveTeamCronjob (mkBW params r)) w1
    = (Done tt, w2, t2) /\
    quota_calls t2 = [(TeamEntity "ops", (-1)%Z)] /\
    sim.teamUse w2 !! "ops" = Some 0%Z.
Proof.
  intros params r w1.
  eexists _, _. split; [vm_compute; reflexivity |].
  split; [| vm_compute; reflexivity].
  pose proof (proj1 (backward_decrements_recorded_entity_by_one
                       sim.World sim.handler w1 _ params r _ _)
                    ltac:(vm_compute; reflexivity)) as Hteam.
  cbn in Hteam. destruct Hteam as (_ & Hq & _). exact Hq.
Defined.

(** C10.  The backward operation of the user-quota step, given a recorded
    map whose ["user"] key holds [email]: it makes one directory lookup, of
    that email; when the lookup fails, that lookup is the only call made, no
    quota call follows, the collaborators are left as the lookup left them
    (the counter stays charged), and the operation ends normally without
    reporting anything. *)
Theorem user_backward_skips_decrement_on_lookup_failure :
  forall (W : Type) (h : Handler W) (w w' : W) (params : list Param)
         (m : gmap string string) (email : string) o t,
    m !! "user" = Some email ->
    run h (call_backward job.reserveUserCronjob (mkBW params (RMap m))) w = (o, w', t) ->
    (exists ans, lookups t = [(email, ans)]) /\
    (forall e, lookups t = [(email, inr e)] ->
               t = [Ev (GetUserByEmail email) (inr e)] /\
               quota_calls t = [] /\
               w' = snd (h (GetUserByEmail email) w) /\
               o = Done tt).
Proof.
  intros W h w w' params m email o t Hm H.
  unfold call_backward in H. cbn -[run] in H. rewrite Hm in H.
  run_inv; cbn.
  - split; [eauto |]. intros e He. inversion He.
  - split; [eauto |]. intros e' He. inversion He; subst.
    rewrite Hh. auto.
Qed.

(** [alice] is charged for [alpha] and is not in the directory: the
    backward operation looks her up, fails, and her counter stays at one. *)
Lemma user_backward_skips_decrement_on_lookup_failure_witness :
  let params := [PJob sim.alpha; PUser sim.alice] in
  let m : gmap string string := <["user" := "alice@example.com"]> {["job" := "alpha"]} in
  let w1 :=
    sim.mkWorld [] false 0 ∅ ∅ {["alice@example.com" := 1%Z]} ∅ [] false [] [] 0 in
  exists (t2 : list Event),
    run sim.handler (call_backward job.reserveUserCronjob (mkBW params (RMap m))) w1
    = (Done tt, w1, t2) /\
    quota_calls t2 = [] /\
    sim.userUse w1 !! "alice@example.com" = Some 1%Z.
Proof.
  intros params m w1.
  eexists. split; [vm_compute; reflexivity |].
  split; [| vm_compute; reflexivity].
  pose proof (user_backward_skips_decrement_on_lookup_failure
                sim.World sim.handler w1 _ params m "alice@example.com" _ _
                ltac:(vm_compute; reflexivity)
                ltac:(vm_compute; reflexivity)) as (_ & Hfail).
  destruct (Hfail (ErrMsg "user not found") ltac:(vm_compute; reflexivity))
    as (_ & Hq & _).
  exact Hq.
Defined.

(** ** The trigger action *)

(** C8.  The trigger action defines no backward operation, so calling its
    compensation does nothing.  Its forward operation, on every
    implementation of the collaborators, resolves the provisioner of the job
    once; when that succeeds it makes exactly one further call, the
    scheduled trigger with the job and the job's own pool, and returns what
    that call returned; when the provisioner cannot be resolved it returns
    that error and triggers nothing. *)
Theorem trigger_invokes_driver_once_without_compensation :
  forall (W : Type) (h : Handler W) (w w' : W) (j : Job) (ps : list Param)
         (prev : Result) o t,
    run h (Forward job.triggerCron (mkFW (PJob j :: ps) prev)) w = (o, w', t) ->
    Backward job.triggerCron = None /\
    (forall ctx, call_backward job.triggerCron ctx = Ret tt) /\
    (exists a, provisioner_answers t = [a]) /\
    (provisioner_answers t = [None] ->
     exists terr,
       t = [Ev (GetProvisioner j) None; Ev (TriggerCron j (Pool j)) terr] /\
       triggers t = [(j, Pool j)] /\
       o = Done (RNil, terr)) /\
    (forall e, provisioner_answers t = [Some e] ->
               triggers t = [] /\ o = Done (RNil, Some e)).
Proof.
  intros W h w w' j ps prev o t H.
  split; [reflexivity |]. split; [reflexivity |].
  cbn -[run] in H. run_inv; cbn.
  all: split; [eauto |].
  all: split; [intros He | intros e' He].
  all: try discriminate He.
  all: try (inversion He; subst); eauto.
Qed.

(** Triggering [alpha], whose pool is [p1]: one trigger call, with [alpha]
    and [p1]. *)
Lemma trigger_invokes_driver_once_without_compensation_witness :
  exists (w' : sim.World) (t : list Event),
    run sim.handler (Forward job.triggerCron (mkFW [PJob sim.alpha] RNil)) sim.empty
    = (Done (RNil, None), w', t) /\
    triggers t = [(sim.alpha, "p1")] /\
    sim.fired w' = [("alpha", "p1")].
Proof.
  destruct (trigger_invokes_driver_once_without_compensation
              sim.World sim.handler sim.empty _ sim.alpha [] RNil _ _
              ltac:(vm_compute; reflexivity))
    as (_ & _ & _ & Hok & _).
  destruct (Hok ltac:(vm_compute; reflexivity)) as (terr & Ht & Htr & Ho).
  eexists _, _. split; [vm_compute; reflexivity |].
  split; [exact Htr | vm_compute; reflexivity].
Defined.

(** A pipeline made of the trigger action alone runs the forward operation
    and nothing else, whatever the trigger call returns. *)
Lemma trigger_pipeline_runs_forward_only :
  forall (W : Type) (h : Handler W) (w : W) (p : Param) (ps : list Param),
    run h (pipeline.Execute [job.triggerCron] (p :: ps)) w
    = run h (Forward job.triggerCron (mkFW (p :: ps) RNil)) w.
Proof.
  intros W h w p ps. unfold pipeline.Execute. cbn -[run].
  destruct p; cbn -[run]; try reflexivity.
  rewrite !run_Vis. destruct (h (GetProvisioner j) w) as [[e |] w1]; [reflexivity |].
  cbn -[run]. rewrite !run_Vis.
  destruct (h (TriggerCron j (Pool j)) w1) as [[e |] w2]; reflexivity.
Qed.

(** * Further properties of the actions *)

(** Running a program forwards, one call at a time. *)
Ltac run_forward h :=
  repeat first
    [ progress cbn -[run]
    | progress unfold call
    | rewrite run_Vis;
      match goal with
      | |- context [h ?c ?w] =>
          let r := fresh "r" in
          let w1 := fresh "w" in
          destruct (h c w) as [r w1]; cbn in r
      end
    | match goal with
      | |- context [match ?x with _ => _ end] => is_var x; destruct x
      | |- context [if DeepEqual ?a ?b then _ else _] => destruct (DeepEqual a b) eqn:?
      | |- context [if FromToken ?u then _ else _] => destruct (FromToken u) eqn:?
      end ].

(** X1.  Every action of the file, given a first parameter that is not a
    job pointer, fails with the same error, records nothing and calls no
    collaborator. *)
Theorem forward_rejects_first_parameter_that_is_no_job :
  forall (a : Action), In a declared ->
  forall (W : Type) (h : Handler W) (w : W) (p : Param) (ps : list Param) (prev : Result),
    (forall j, p <> PJob j) ->
    run h (Forward a (mkFW (p :: ps) prev)) w
    = (Done (RNil, Some (ErrMsg "first parameter must be *Job")), w, []).
Proof.
  intros a Hin W h w p ps prev Hp.
  assert (Hcase : match p with PJob _ => False | _ => True end).
  { destruct p; try exact I. eapply Hp. reflexivity. }
  clear Hp. simpl in Hin.
  repeat destruct Hin as [<- | Hin]; try contradiction;
    destruct p; try contradiction; reflexivity.
Qed.

Lemma forward_rejects_first_parameter_that_is_no_job_witness :
  run sim.handler (Forward job.insertJob (mkFW [PUser sim.alice] RNil)) sim.empty
  = (Done (RNil, Some (ErrMsg "first parameter must be *Job")), sim.empty, []).
Proof.
  apply (forward_rejects_first_parameter_that_is_no_job job.insertJob).
  - simpl. auto 10.
  - intros j. discriminate.
Defined.



(** X3.  Every action of the file accepts what it recorded: when the
    forward operation succeeds with the result [r], the backward operation
    given the same parameters and [r] ends normally, on every implementation
    of the collaborators.  The guarantee is needed by two of them: given a
    nil result, the backward operations of [insertJob] and
    [reserveTeamCronjob] panic on their type assertion, before any call. *)
Theorem backward_accepts_own_forward_result :
  forall (a : Action), In a declared ->
  forall (W : Type) (h : Handler W) (w w1 : W) (params : list Param) (prev r : Result)
         (t1 : list Event),
    (run h (Forward a (mkFW params prev)) w = (Done (r, None), w1, t1) ->
     forall (h' : Handler W) (w2 : W),
     exists w3 t3, run h' (call_backward a (mkBW params r)) w2 = (Done tt, w3, t3)) /\
    run h (call_backward job.insertJob (mkBW params RNil)) w
    = (Panicked "interface conversion: interface {} is not *job.Job", w, []) /\
    run h (call_backward job.reserveTeamCronjob (mkBW params RNil)) w
    = (Panicked "interface conversion: interface {} is not map[string]string", w, []).
Proof.
  intros a Hin W h w w1 params prev r t1. split; [| split; reflexivity].
  intros H h' w2. simpl in Hin.
  repeat destruct Hin as [<- | Hin]; try contradiction.
  all: destruct params as [| p ps]; [cbn in H; discriminate |].
  all: unfold call_backward, job.updateJobDB, job.insertJobDB, DeepEqual in *.
  all: destruct p; cbn -[run] in H.
  all: try match type of H with
           | context [?l !! 0%nat] => is_var l; destruct l; cbn -[run] in H
           end.
  all: run_inv.
  all: try discriminate.
  all: run_forward h'; simpl.
  all: repeat match goal with u : unit |- _ => destruct u end; eauto.
  all: try rewrite lookup_insert_eq.
  all: try match goal with |- context [?m !! ?k] => destruct (m !! k) end.
  all: run_forward h'; simpl; eauto.
Qed.

Lemma backward_accepts_own_forward_result_witness :
  let params := [PJob sim.alpha; PUser sim.alice] in
  exists w3 t3,
    run sim.handler
        (call_backward job.insertJob (mkBW params (RJob sim.alpha)))
        (sim.set_docs [sim.alpha] sim.empty)
    = (Done tt, w3, t3).
Proof.
  intros params.
  eapply (proj1 (backward_accepts_own_forward_result
                   job.insertJob ltac:(simpl; auto 10)
                   sim.World sim.handler sim.empty _ params RNil (RJob sim.alpha) _)).
  vm_compute. reflexivity.
Defined.

(** X4.  The team step reserves and releases the same team.  Its forward
    operation makes exactly one call, the increment by one of the job's
    owning team; when the ledger refuses, the error is returned with a nil
    result; when it accepts, the recorded map holds the job's name and the
    team, and the backward operation given that map makes exactly one quota
    call, the decrement by one of that same team. *)
Theorem team_reservation_is_released_for_the_same_team :
  forall (W : Type) (h : Handler W) (w w1 : W) (j : Job) (ps : list Param)
         (prev : Result) o (t1 : list Event),
    run h (Forward job.reserveTeamCronjob (mkFW (PJob j :: ps) prev)) w = (o, w1, t1) ->
    quota_calls t1 = [(TeamEntity (TeamOwner j), 1%Z)] /\
    length t1 = 1%nat /\
    ((exists e, o = Done (RNil, Some e)) \/
     (exists m : gmap string string,
         o = Done (RMap m, None) /\
         m !! "job" = Some (Name j) /\
         m !! "team" = Some (TeamOwner j) /\
         forall (h' : Handler W) (w2 w3 : W) (params' : list Param) o' t3,
           run h' (call_backward job.reserveTeamCronjob (mkBW params' (RMap m))) w2
           = (o', w3, t3) ->
           o' = Done tt /\ quota_calls t3 = [(TeamEntity (TeamOwner j), (-1)%Z)])).
Proof.
  intros W h w w1 j ps prev o t1 H.
  cbn -[run] in H. run_inv; cbn; (split; [reflexivity |]); (split; [reflexivity |]).
  all: try (left; solve [eauto]).
  right. eexists. split; [reflexivity |].
  split; [reflexivity |]. split; [apply lookup_insert_eq |].
  intros h' w2 w3 params' o' t3 Hb.
  unfold call_backward in Hb. cbn -[run] in Hb.
  rewrite lookup_insert_eq in Hb. run_inv. auto.
Qed.

Lemma team_reservation_is_released_for_the_same_team_witness :
  exists w1 t1,
    run sim.handler
        (Forward job.reserveTeamCronjob (mkFW [PJob sim.alpha; PUser sim.alice] RNil))
        sim.empty
    = (Done (RMap (<["team" := "ops"]> {["job" := "alpha"]}), None), w1, t1) /\
    quota_calls t1 = [(TeamEntity "ops", 1%Z)].
Proof.
  destruct (team_reservation_is_released_for_the_same_team
              sim.World sim.handler sim.empty _ sim.alpha [PUser sim.alice] RNil _ _
              ltac:(vm_compute; reflexivity)) as (Hq & _).
  eexists _, _. split; [vm_compute; reflexivity | exact Hq].
Defined.

(** X5.  The user step, for a user not derived from a token and passed by
    value or by pointer.  Its forward operation makes exactly one call, the
    increment by one of that user; when the ledger refuses, the error is
    returned with a nil result; when it accepts, the recorded map holds the
    user's email, and the backward operation given that map looks up that
    email and decrements by one the user the directory returns. *)
Theorem user_reservation_is_released_by_email :
  forall (W : Type) (h : Handler W) (w w1 : W) (j : Job) (u : User) (q : Param)
         (ps : list Param) (prev : Result) o (t1 : list Event),
    FromToken u = false ->
    q = PUser u \/ q = PUserPtr u ->
    run h (Forward job.reserveUserCronjob (mkFW (PJob j :: q :: ps) prev)) w = (o, w1, t1) ->
    quota_calls t1 = [(UserEntity u, 1%Z)] /\
    length t1 = 1%nat /\
    ((exists e, o = Done (RNil, Some e)) \/
     (exists m : gmap string string,
         o = Done (RMap m, None) /\
         m !! "user" = Some (Email u) /\
         forall (h' : Handler W) (w2 w3 : W) (params' : list Param) o' t3,
           run h' (call_backward job.reserveUserCronjob (mkBW params' (RMap m))) w2
           = (o', w3, t3) ->
           o' = Done tt /\
           exists ans,
             lookups t3 = [(Email u, ans)] /\
             quota_calls t3 = match ans with
                              | inl u' => [(UserEntity u', (-1)%Z)]
                              | inr _ => []
                              end)).
Proof.
  intros W h w w1 j u q ps prev o t1 Htok Hq H.
  assert (H' : run h (if FromToken u
                      then Ret (RMap {["job" := Name j]}, None)
                      else Vis (UserQuotaInc u 1)
                             (fun r : option error =>
                                match r with
                                | Some err => Ret (RNil, Some err)
                                | None =>
                                    Ret (RMap (<["user" := Email u]> {["job" := Name j]}), None)
                                end)) w = (o, w1, t1)).
  { destruct Hq as [-> | ->]; exact H. }
  clear H. rewrite Htok in H'.
  run_inv; cbn; (split; [reflexivity |]); (split; [reflexivity |]).
  all: try (left; solve [eauto]).
  right. eexists. split; [reflexivity |]. split; [apply lookup_insert_eq |].
  intros h' w2 w3 params' o' t3 Hb.
  unfold call_backward in Hb. cbn -[run] in Hb.
  rewrite lookup_insert_eq in Hb. run_inv; cbn; eauto.
Qed.

Lemma user_reservation_is_released_by_email_witness :
  exists w1 t1,
    run sim.handler
        (Forward job.reserveUserCronjob (mkFW [PJob sim.alpha; PUserPtr sim.alice] RNil))
        sim.empty
    = (Done (RMap (<["user" := "alice@example.com"]> {["job" := "alpha"]}), None), w1, t1) /\
    quota_calls t1 = [(UserEntity sim.alice, 1%Z)].
Proof.
  destruct (user_reservation_is_released_by_email
              sim.World sim.handler sim.empty _ sim.alpha sim.alice (PUserPtr sim.alice)
              [] RNil _ _
              ltac:(reflexivity) ltac:(right; reflexivity)
              ltac:(vm_compute; reflexivity)) as (Hq & _).
  eexists _, _. split; [vm_compute; reflexivity | exact Hq].
Defined.

(** X6.  The second parameter of the user step: anything that is neither a
    user nor a pointer to a user is rejected before any call, so nothing is
    reserved. *)
Theorem user_step_rejects_second_parameter_that_is_no_user :
  forall (W : Type) (h : Handler W) (w : W) (j : Job) (q : Param) (ps : list Param)
         (prev : Result),
    (forall u, q <> PUser u /\ q <> PUserPtr u) ->
    run h (Forward job.reserveUserCronjob (mkFW (PJob j :: q :: ps) prev)) w
    = (Done (RNil, Some (ErrMsg "second parameter must be auth.User or *auth.User")), w, []).
Proof.
  intros W h w j q ps prev Hq.
  destruct q as [j' | u | u | tag]; try reflexivity.
  - exfalso. apply (proj1 (Hq u)). reflexivity.
  - exfalso. apply (proj2 (Hq u)). reflexivity.
Qed.

Lemma user_step_rejects_second_parameter_that_is_no_user_witness :
  run sim.handler
      (Forward job.reserveUserCronjob (mkFW [PJob sim.alpha; PJob sim.alpha2] RNil)) sim.empty
  = (Done (RNil, Some (ErrMsg "second parameter must be auth.User or *auth.User")),
     sim.empty, []).
Proof.
  apply (user_step_rejects_second_parameter_that_is_no_user sim.World sim.handler).
  intros u. split; discriminate.
Defined.

(** X7.  The provisioning step.  Its forward operation resolves the
    provisioner of the job and, only when that succeeds, ensures the job; it
    records nil in every case and returns the first error met.  Its backward
    operation takes the job from the parameters, whatever was recorded: it
    resolves the provisioner and, only when that succeeds, destroys that
    job; the error of the destroy call is dropped and the operation always
    ends normally. *)
Theorem provision_is_undone_for_the_job_in_the_parameters :
  forall (W : Type) (h : Handler W) (w w' : W) (j : Job) (ps : list Param)
         (prev r : Result),
    (forall o t,
        run h (Forward job.provisionJob (mkFW (PJob j :: ps) prev)) w = (o, w', t) ->
        (exists e, t = [Ev (GetProvisioner j) (Some e)] /\ o = Done (RNil, Some e)) \/
        (exists err, t = [Ev (GetProvisioner j) None; Ev (EnsureJob j) err] /\
                     o = Done (RNil, err))) /\
    (forall o t,
        run h (call_backward job.provisionJob (mkBW (PJob j :: ps) r)) w = (o, w', t) ->
        o = Done tt /\
        ((exists e, t = [Ev (GetProvisioner j) (Some e)]) \/
         (exists err, t = [Ev (GetProvisioner j) None; Ev (DestroyJob j) err]))).
Proof.
  intros W h w w' j ps prev r. split; intros o t H.
  - cbn -[run] in H. run_inv; eauto.
  - unfold call_backward in H. cbn -[run] in H. run_inv; eauto.
Qed.

Lemma provision_is_undone_for_the_job_in_the_parameters_witness :
  let w := sim.set_running ["alpha"] sim.empty in
  exists t,
    run sim.handler (call_backward job.provisionJob (mkBW [PJob sim.alpha] RNil)) w
    = (Done tt, sim.empty, t) /\
    length t = 2%nat.
Proof.
  intros w.
  destruct (proj2 (provision_is_undone_for_the_job_in_the_parameters
                     sim.World sim.handler w sim.empty sim.alpha [] RNil RNil) _ _
                  ltac:(vm_compute; reflexivity)) as (_ & Ht).
  eexists. split; [vm_compute; reflexivity | reflexivity].
Defined.

(** X8.  The persist step is undone for the job it inserted.  When the
    forward operation succeeds, the job was inserted once and the result
    recorded is that job; the backward operation given a job makes exactly
    one call, the removal of that job, drops its error and ends normally. *)
Theorem insert_is_undone_by_removing_the_inserted_job :
  forall (W : Type) (h : Handler W) (w w' : W) (j : Job) (ps : list Param)
         (prev : Result),
    (forall r t,
        run h (Forward job.insertJob (mkFW (PJob j :: ps) prev)) w = (Done (r, None), w', t) ->
        r = RJob j /\ inserts t = [(j, None)]) /\
    (forall (params : list Param) o t,
        run h (call_backward job.insertJob (mkBW params (RJob j))) w = (o, w', t) ->
        o = Done tt /\ exists err, t = [Ev (RemoveJob j) err]).
Proof.
  intros W h w w' j ps prev. split.
  - intros r t H. unfold job.insertJob, job.insertJobDB in H. cbn -[run] in H.
    run_inv; auto.
  - intros params o t H. unfold call_backward in H. cbn -[run] in H.
    run_inv. eauto.
Qed.

Lemma insert_is_undone_by_removing_the_inserted_job_witness :
  exists w' t,
    run sim.handler (Forward job.insertJob (mkFW [PJob sim.alpha] RNil)) sim.empty
    = (Done (RJob sim.alpha, None), w', t) /\
    inserts t = [(sim.alpha, None)] /\
    sim.docs w' = [sim.alpha].
Proof.
  destruct (proj1 (insert_is_undone_by_removing_the_inserted_job
                     sim.World sim.handler sim.empty _ sim.alpha [] RNil) _ _
                  ltac:(vm_compute; reflexivity)) as (_ & Hi).
  eexists _, _. split; [vm_compute; reflexivity |].
  split; [exact Hi | vm_compute; reflexivity].
Defined.

(** X9.  When the collection handle cannot be acquired, neither store
    function reads or writes: [insertJobDB] and [updateJobDB] return the
    error of the handle after that single call, and so does the forward
    operation of the persist step, recording nil. *)
Theorem store_functions_stop_when_handle_is_unavailable :
  forall (W : Type) (h : Handler W) (w w1 : W) (j : Job) (e : error)
         (ps : list Param) (prev : Result),
    h JobsCollection w = (Some e, w1) ->
    run h (job.insertJobDB j) w = (Done (Some e), w1, [Ev JobsCollection (Some e)]) /\
    run h (job.updateJobDB j) w = (Done (Some e), w1, [Ev JobsCollection (Some e)]) /\
    run h (Forward job.insertJob (mkFW (PJob j :: ps) prev)) w
    = (Done (RNil, Some e), w1, [Ev JobsCollection (Some e)]).
Proof.
  intros W h w w1 j e ps prev Hh.
  repeat split.
  - unfold job.insertJobDB. cbn -[run]. rewrite run_Vis, Hh. reflexivity.
  - unfold job.updateJobDB. cbn -[run]. rewrite run_Vis, Hh. reflexivity.
  - unfold job.insertJobDB. cbn -[run]. rewrite run_Vis, Hh. reflexivity.
Qed.

Lemma store_functions_stop_when_handle_is_unavailable_witness :
  let w := sim.mkWorld [sim.alpha] true 0 ∅ ∅ ∅ ∅ [] false [] [] 0 in
  run sim.handler (job.updateJobDB sim.alpha2) w
  = (Done (Some (ErrMsg "no connection")), w,
     [Ev JobsCollection (Some (ErrMsg "no connection"))]).
Proof.
  intros w.
  apply (store_functions_stop_when_handle_is_unavailable
           sim.World sim.handler w w sim.alpha2 (ErrMsg "no connection") [] RNil).
  reflexivity.
Defined.

(** X10.  Neither store function does the other's work.  [updateJobDB]
    never inserts: whatever the store answers it issues no insert, and when
    the lookup fails, with not-found or anything else, it returns that error
    without writing.  [insertJobDB] never replaces a record. *)
Theorem update_never_inserts_and_insert_never_replaces :
  forall (W : Type) (h : Handler W) (w w' : W) (j : Job) o t,
    (run h (job.updateJobDB j) w = (o, w', t) ->
     inserts t = [] /\
     forall e, In (Name j, inr e) (reads t) -> o = Done (Some e) /\ writes t = []) /\
    (run h (job.insertJobDB j) w = (o, w', t) -> writes t = []).
Proof.
  intros W h w w' j o t. split; intros H.
  - unfold job.updateJobDB, DeepEqual in H. cbn -[run] in H.
    run_inv; cbn; (split; [reflexivity |]); intros e' Hin; cbn in Hin;
      repeat match goal with
             | Hd : _ \/ _ |- _ => destruct Hd
             | Hf : False |- _ => destruct Hf
             | Heq : (_, _) = (_, _) |- _ => inversion Heq; subst; clear Heq
             end; auto.
  - unfold job.insertJobDB in H. cbn -[run] in H.
    run_inv; reflexivity.
Qed.

Lemma update_never_inserts_and_insert_never_replaces_witness :
  exists t,
    run sim.handler (job.updateJobDB sim.alpha) sim.empty
    = (Done (Some ErrJobNotFound), sim.empty, t) /\
    inserts t = [] /\ writes t = [].
Proof.
  destruct (proj1 (update_never_inserts_and_insert_never_replaces
                     sim.World sim.handler sim.empty _ sim.alpha _ _)
                  ltac:(vm_compute; reflexivity)) as (Hi & Hr).
  destruct (Hr ErrJobNotFound ltac:(vm_compute; auto)) as (_ & Hw).
  eexists. split; [vm_compute; reflexivity |]. split; [exact Hi | exact Hw].
Defined.

(** * The data of [tsuru.yaml] *)

Section YamlData.

Import provision.

Lemma hc_of_process_not_found (ps : list TsuruYamlProcess) (process : string) :
  snd (hc_of_process ps process) = Some ErrProcessNotFound <->
  Forall (fun p => ProcessName p <> process) ps.
Proof.
  induction ps as [| p ps IH]; simpl.
  - split; [constructor | reflexivity].
  - destruct (String.eqb_spec (ProcessName p) process) as [Heq | Hne]; simpl.
    + split; [discriminate |]. intros H. inversion H; subst. contradiction.
    + rewrite IH. split; [intros H; constructor; assumption |].
      intros H. inversion H; subst. assumption.
Qed.

Lemma hc_of_process_first (pre post : list TsuruYamlProcess) (p : TsuruYamlProcess)
      (process : string) :
  Forall (fun x => ProcessName x <> process) pre ->
  ProcessName p = process ->
  hc_of_process (pre ++ p :: post) process = (ProcessHealthcheck p, None).
Proof.
  intros Hpre Hp. induction Hpre as [| x pre Hx _ IH]; simpl.
  - rewrite (proj2 (String.eqb_eq _ _) Hp). reflexivity.
  - rewrite (proj2 (String.eqb_neq _ _) Hx). exact IH.
Qed.

(** The inner loop is a lookup in the map made of the visited entries. *)
Lemma config_in_group_lookup (l : list (string * TsuruYamlKubernetesProcessConfig))
      (procName : string) :
  config_in_group l procName
  = (list_to_map l : gmap string TsuruYamlKubernetesProcessConfig) !! procName.
Proof.
  induction l as [| [p proc] l IH]; simpl.
  - rewrite lookup_empty. reflexivity.
  - destruct (String.eqb_spec p procName) as [-> | Hne].
    + rewrite lookup_insert_eq. reflexivity.
    + rewrite lookup_insert_ne by exact Hne. exact IH.
Qed.

Lemma ranges_list_to_map {V : Type} (m : gmap string V) (l : list (string * V)) :
  ranges m l -> list_to_map l = m.
Proof.
  unfold ranges. intros Hl.
  rewrite <- (list_to_map_to_list m).
  apply list_to_map_proper; [| exact Hl].
  rewrite Hl. apply NoDup_fst_map_to_list.
Qed.

Lemma config_in_group_ranges (g : gmap string TsuruYamlKubernetesProcessConfig)
      (l : list (string * TsuruYamlKubernetesProcessConfig)) (procName : string) :
  ranges g l -> config_in_group l procName = g !! procName.
Proof.
  intros Hl. rewrite config_in_group_lookup, (ranges_list_to_map g l Hl). reflexivity.
Qed.

(** The outer loop over any list of groups whose entries are in the map. *)
Lemma config_in_groups_none (G : gmap string TsuruYamlKubernetesGroup)
      (inner : string -> list (string * TsuruYamlKubernetesProcessConfig))
      (procName : string) :
  (forall k g, G !! k = Some g -> ranges g (inner k)) ->
  forall outer,
    (forall k g, (k, g) ∈ outer -> G !! k = Some g) ->
    (config_in_groups outer inner procName = None <->
     forall k g, (k, g) ∈ outer -> g !! procName = None).
Proof.
  intros Hinner outer. induction outer as [| [k g] outer IH]; intros Hin; simpl.
  - split; [| reflexivity]. intros _ k g Hk. inversion Hk.
  - assert (Hg : G !! k = Some g) by (apply Hin; left).
    rewrite (config_in_group_ranges g (inner k) procName (Hinner k g Hg)).
    destruct (g !! procName) as [c |] eqn:E.
    + split; [discriminate |]. intros H.
      specialize (H k g ltac:(left)). congruence.
    + rewrite IH by (intros k' g' Hk'; apply Hin; right; exact Hk').
      split.
      * intros H k' g' Hk'. apply elem_of_cons in Hk' as [Heq | Hk'].
        -- inversion Heq; subst. exact E.
        -- apply (H k' g' Hk').
      * intros H k' g' Hk'. apply (H k' g'). right. exact Hk'.
Qed.

Lemma config_in_groups_some (G : gmap string TsuruYamlKubernetesGroup)
      (inner : string -> list (string * TsuruYamlKubernetesProcessConfig))
      (procName : string) :
  (forall k g, G !! k = Some g -> ranges g (inner k)) ->
  forall outer c,
    (forall k g, (k, g) ∈ outer -> G !! k = Some g) ->
    config_in_groups outer inner procName = Some c ->
    exists k g, (k, g) ∈ outer /\ g !! procName = Some c.
Proof.
  intros Hinner outer c. induction outer as [| [k g] outer IH]; intros Hin; simpl.
  - discriminate.
  - assert (Hg : G !! k = Some g) by (apply Hin; left).
    rewrite (config_in_group_ranges g (inner k) procName (Hinner k g Hg)).
    destruct (g !! procName) as [c' |] eqn:E.
    + intros H. inversion H; subst. exists k, g. split; [left | exact E].
    + intros H. destruct (IH ltac:(intros k' g' Hk'; apply Hin; right; exact Hk') H)
        as (k' & g' & Hk' & Hc).
      exists k', g'. split; [right; exact Hk' | exact Hc].
Qed.

Lemma visits_elem (y : TsuruYamlKubernetesConfig)
      (outer : list (string * TsuruYamlKubernetesGroup))
      (inner : string -> list (string * TsuruYamlKubernetesProcessConfig)) :
  visits y outer inner ->
  forall k g, (k, g) ∈ outer <-> default ∅ (Groups y) !! k = Some g.
Proof.
  intros [Houter _] k g. unfold ranges in Houter.
  rewrite Houter. apply elem_of_map_to_list.
Qed.

(** The loop of [DeepCopyInto] over entries with distinct keys. *)
Lemma copy_entries_union (l : list (string * TsuruYamlKubernetesGroup)) :
  NoDup l.*1 ->
  forall into, copy_entries l into = list_to_map l ∪ into.
Proof.
  unfold copy_entries.
  induction l as [| [k v] l IH]; intros Hnd into; simpl.
  - rewrite (left_id_L ∅ (∪)). reflexivity.
  - inversion Hnd as [| ? ? Hk Hnd']; subst.
    rewrite (IH Hnd'). rewrite <- insert_union_l.
    symmetry. apply insert_union_r. apply not_elem_of_list_to_map_1. exact Hk.
Qed.

Lemma copy_entries_ranges (gi : gmap string TsuruYamlKubernetesGroup)
      (order : list (string * TsuruYamlKubernetesGroup)) :
  ranges gi order ->
  forall into, copy_entries order into = gi ∪ into.
Proof.
  intros Ho into. rewrite copy_entries_union.
  - rewrite (ranges_list_to_map gi order Ho). reflexivity.
  - unfold ranges in Ho. rewrite Ho. apply NoDup_fst_map_to_list.
Qed.

(** X11.  [GetHCFromProcessName] fails, with [ErrProcessNotFound], exactly
    when no process of the data bears the name; the pointer returned is then
    nil, and no other error is ever returned. *)
Theorem healthcheck_lookup_fails_iff_no_process_has_the_name :
  forall (y : TsuruYamlData) (process : string),
    (snd (GetHCFromProcessName y process) = Some ErrProcessNotFound <->
     Forall (fun p => ProcessName p <> process) (Processes y)) /\
    (snd (GetHCFromProcessName y process) = Some ErrProcessNotFound ->
     fst (GetHCFromProcessName y process) = None) /\
    (snd (GetHCFromProcessName y process) = None \/
     snd (GetHCFromProcessName y process) = Some ErrProcessNotFound).
Proof.
  intros y process. unfold GetHCFromProcessName.
  split; [apply hc_of_process_not_found |].
  generalize (Processes y). intros ps.
  induction ps as [| p ps [IH1 IH2]]; simpl.
  - split; auto.
  - destruct (String.eqb (ProcessName p) process); simpl; [| auto].
    split; [discriminate | auto].
Qed.

Lemma healthcheck_lookup_fails_iff_no_process_has_the_name_witness :
  let y := mkData None None None [mkProcess None "web" "run-web"] in
  GetHCFromProcessName y "worker" = (None, Some ErrProcessNotFound).
Proof.
  intros y.
  destruct (healthcheck_lookup_fails_iff_no_process_has_the_name y "worker")
    as ([_ Herr] & Hnil & _).
  assert (He : snd (GetHCFromProcessName y "worker") = Some ErrProcessNotFound).
  { apply Herr. repeat constructor. simpl. discriminate. }
  specialize (Hnil He).
  destruct (GetHCFromProcessName y "worker") as [hc err]. simpl in *.
  subst. reflexivity.
Defined.

(** X12.  [GetHCFromProcessName] answers for the first process bearing the
    name: the processes after it are not looked at, and its healthcheck is
    returned as it is, so a process without healthcheck yields a nil pointer
    together with a nil error. *)
Theorem healthcheck_lookup_returns_first_match :
  forall (y : TsuruYamlData) (pre post : list TsuruYamlProcess) (p : TsuruYamlProcess)
         (process : string),
    Processes y = pre ++ p :: post ->
    Forall (fun x => ProcessName x <> process) pre ->
    ProcessName p = process ->
    GetHCFromProcessName y process = (ProcessHealthcheck p, None).
Proof.
  intros y pre post p process Hy Hpre Hp.
  unfold GetHCFromProcessName. rewrite Hy.
  apply hc_of_process_first; assumption.
Qed.

Lemma healthcheck_lookup_returns_first_match_witness :
  let hc := mkHealthcheck ∅ "/health" "http" [] 0 0 0 0 false in
  let y := mkData None None None
                  [mkProcess None "worker" "run-worker";
                   mkProcess None "web" "run-web";
                   mkProcess (Some hc) "web" "run-other"] in
  GetHCFromProcessName y "web" = (None, None).
Proof.
  intros hc y.
  apply (healthcheck_lookup_returns_first_match
           y [mkProcess None "worker" "run-worker"]
           [mkProcess (Some hc) "web" "run-other"]
           (mkProcess None "web" "run-web") "web").
  - reflexivity.
  - repeat constructor. simpl. discriminate.
  - reflexivity.
Defined.

(** X13.  [GetProcessConfigs], in whatever order the two loops visit the
    maps: it returns nil exactly when no group has an entry for the process,
    and a configuration it returns is the entry of some group for that
    process. *)
Theorem process_config_is_nil_iff_no_group_defines_it :
  forall (y : TsuruYamlKubernetesConfig)
         (outer : list (string * TsuruYamlKubernetesGroup))
         (inner : string -> list (string * TsuruYamlKubernetesProcessConfig))
         (procName : string),
    visits y outer inner ->
    (GetProcessConfigs outer inner procName = None <->
     forall k g, default ∅ (Groups y) !! k = Some g -> g !! procName = None) /\
    (forall c, GetProcessConfigs outer inner procName = Some c ->
               exists k g, default ∅ (Groups y) !! k = Some g /\ g !! procName = Some c).
Proof.
  intros y outer inner procName Hv.
  pose proof (visits_elem y outer inner Hv) as Helem.
  destruct Hv as [_ Hinner]. unfold GetProcessConfigs. split.
  - rewrite (config_in_groups_none _ inner procName Hinner outer
               (fun k g Hk => proj1 (Helem k g) Hk)).
    split; intros H k g Hk; apply (H k g); apply Helem; exact Hk.
  - intros c Hc.
    destruct (config_in_groups_some _ inner procName Hinner outer c
                (fun k g Hk => proj1 (Helem k g) Hk) Hc) as (k & g & Hk & Hg).
    exists k, g. split; [apply Helem; exact Hk | exact Hg].
Qed.

Lemma process_config_is_nil_iff_no_group_defines_it_witness :
  let web := mkProcessConfig [mkPortConfig "http" "TCP" 80 8080] in
  let g : TsuruYamlKubernetesGroup := {["web" := web]} in
  let y := mkKubernetesConfig (Some {["pod1" := g]}) in
  GetProcessConfigs [("pod1", g)] (fun _ => [("web", web)]) "worker" = None.
Proof.
  intros web g y.
  assert (Hv : visits y [("pod1", g)] (fun _ => [("web", web)])).
  { split.
    - unfold ranges. simpl. rewrite map_to_list_singleton. reflexivity.
    - intros k g' Hk. simpl in Hk. apply lookup_singleton_Some in Hk as [_ <-].
      unfold ranges, g. rewrite map_to_list_singleton. reflexivity. }
  destruct (process_config_is_nil_iff_no_group_defines_it
              y [("pod1", g)] (fun _ => [("web", web)]) "worker" Hv) as [[_ Hnone] _].
  apply Hnone. intros k g' Hk. simpl in Hk.
  apply lookup_singleton_Some in Hk as [_ <-]. reflexivity.
Defined.

(** X14.  When the groups that define the process all give it the same
    configuration, the answer of [GetProcessConfigs] does not depend on the
    order in which the maps are visited. *)
Theorem process_config_is_order_independent_when_groups_agree :
  forall (y : TsuruYamlKubernetesConfig)
         (outer outer' : list (string * TsuruYamlKubernetesGroup))
         (inner inner' : string -> list (string * TsuruYamlKubernetesProcessConfig))
         (procName : string),
    visits y outer inner ->
    visits y outer' inner' ->
    (forall k1 g1 c1 k2 g2 c2,
        default ∅ (Groups y) !! k1 = Some g1 -> g1 !! procName = Some c1 ->
        default ∅ (Groups y) !! k2 = Some g2 -> g2 !! procName = Some c2 ->
        c1 = c2) ->
    GetProcessConfigs outer inner procName = GetProcessConfigs outer' inner' procName.
Proof.
  intros y outer outer' inner inner' procName Hv Hv' Hagree.
  pose proof (visits_elem y outer inner Hv) as He.
  pose proof (visits_elem y outer' inner' Hv') as He'.
  destruct Hv as [_ Hi]. destruct Hv' as [_ Hi']. unfold GetProcessConfigs.
  destruct (config_in_groups outer inner procName) as [c |] eqn:E;
    destruct (config_in_groups outer' inner' procName) as [c' |] eqn:E'; try reflexivity.
  - destruct (config_in_groups_some _ inner procName Hi outer c
                (fun k g Hk => proj1 (He k g) Hk) E) as (k & g & Hk & Hg).
    destruct (config_in_groups_some _ inner' procName Hi' outer' c'
                (fun k g Hk => proj1 (He' k g) Hk) E') as (k' & g' & Hk' & Hg').
    f_equal. apply (Hagree k g c k' g' c'); auto; [apply He | apply He']; assumption.
  - destruct (config_in_groups_some _ inner procName Hi outer c
                (fun k g Hk => proj1 (He k g) Hk) E) as (k & g & Hk & Hg).
    pose proof (proj1 (config_in_groups_none _ inner' procName Hi' outer'
                         (fun k g Hk => proj1 (He' k g) Hk)) E' k g
                      (proj2 (He' k g) (proj1 (He k g) Hk))) as Hn.
    congruence.
  - destruct (config_in_groups_some _ inner' procName Hi' outer' c'
                (fun k g Hk => proj1 (He' k g) Hk) E') as (k & g & Hk & Hg).
    pose proof (proj1 (config_in_groups_none _ inner procName Hi outer
                         (fun k g Hk => proj1 (He k g) Hk)) E k g
                      (proj2 (He k g) (proj1 (He' k g) Hk))) as Hn.
    congruence.
Qed.

Lemma process_config_is_order_independent_when_groups_agree_witness :
  let a := mkProcessConfig [mkPortConfig "http" "TCP" 80 8080] in
  let ga : TsuruYamlKubernetesGroup := {["web" := a]} in
  let inner := fun _ : string => [("web", a)] in
  GetProcessConfigs [("pod1", ga); ("pod2", ga)] inner "web"
  = GetProcessConfigs [("pod2", ga); ("pod1", ga)] inner "web".
Proof.
  intros a ga inner.
  set (G := (<["pod1" := ga]> {["pod2" := ga]} : gmap string TsuruYamlKubernetesGroup)).
  assert (Hfirst : ranges G [("pod1", ga); ("pod2", ga)]).
  { unfold ranges, G. rewrite map_to_list_insert by reflexivity.
    rewrite map_to_list_singleton. reflexivity. }
  assert (Hinner : forall k g, G !! k = Some g -> ranges g (inner k)).
  { intros k g Hk. unfold G in Hk.
    apply lookup_insert_Some in Hk as [[_ <-] | [_ Hk]].
    - unfold ranges, ga, inner. rewrite map_to_list_singleton. reflexivity.
    - apply lookup_singleton_Some in Hk as [_ <-].
      unfold ranges, ga, inner. rewrite map_to_list_singleton. reflexivity. }
  apply (process_config_is_order_independent_when_groups_agree
           (mkKubernetesConfig (Some G))
           [("pod1", ga); ("pod2", ga)] [("pod2", ga); ("pod1", ga)] inner inner "web").
  - split; [exact Hfirst | exact Hinner].
  - split; [| exact Hinner].
    unfold ranges in *. cbn [Groups default]. rewrite <- Hfirst. apply perm_swap.
  - intros k1 g1 c1 k2 g2 c2 H1 Hc1 H2 Hc2. cbn [Groups default] in H1, H2.
    assert (Hall : forall k g c, G !! k = Some g -> g !! "web" = Some c -> c = a).
    { intros k g c Hk Hc. unfold G in Hk.
      apply lookup_insert_Some in Hk as [[_ <-] | [_ Hk]].
      - apply lookup_singleton_Some in Hc as [_ <-]. reflexivity.
      - apply lookup_singleton_Some in Hk as [_ <-].
        apply lookup_singleton_Some in Hc as [_ <-]. reflexivity. }
    rewrite (Hall k1 g1 c1 H1 Hc1), (Hall k2 g2 c2 H2 Hc2). reflexivity.
Defined.

(** X15.  When several groups define the process, [GetProcessConfigs] may
    answer with the entry of any of them: for each such group there is an
    order of visit in which its entry is the one returned. *)
Theorem process_config_may_come_from_any_defining_group :
  forall (y : TsuruYamlKubernetesConfig) (k : string) (g : TsuruYamlKubernetesGroup)
         (c : TsuruYamlKubernetesProcessConfig) (procName : string),
    default ∅ (Groups y) !! k = Some g ->
    g !! procName = Some c ->
    exists outer inner,
      visits y outer inner /\ GetProcessConfigs outer inner procName = Some c.
Proof.
  intros y k g c procName Hk Hg.
  set (G := default ∅ (Groups y)) in *.
  exists ((k, g) :: map_to_list (delete k G)).
  exists (fun k' => map_to_list (default ∅ (G !! k'))).
  split; [split |].
  - unfold ranges. fold G. apply map_to_list_delete. exact Hk.
  - intros k' g' Hk'. fold G in Hk'. unfold ranges. rewrite Hk'. reflexivity.
  - unfold GetProcessConfigs. simpl.
    rewrite (config_in_group_ranges (default ∅ (G !! k)) _ procName
               ltac:(unfold ranges; reflexivity)).
    rewrite Hk. simpl. rewrite Hg. reflexivity.
Qed.

Lemma process_config_may_come_from_any_defining_group_witness :
  let a := mkProcessConfig [mkPortConfig "http" "TCP" 80 8080] in
  let b := mkProcessConfig [mkPortConfig "http" "TCP" 80 9090] in
  let y := mkKubernetesConfig
             (Some (<["pod1" := {["web" := a]}]> {["pod2" := {["web" := b]}]})) in
  exists outer inner,
    visits y outer inner /\ GetProcessConfigs outer inner "web" = Some b.
Proof.
  intros a b y.
  apply (process_config_may_come_from_any_defining_group y "pod2" {["web" := b]} b "web");
    vm_compute; reflexivity.
Defined.

(** X16.  [DeepCopy] returns a value equal to the receiver, in whatever
    order the loop visits the groups: a nil [Groups] stays nil, and a
    non-nil one, empty or not, is copied entry by entry. *)
Theorem deep_copy_equals_receiver :
  forall (y : TsuruYamlKubernetesConfig) (order : list (string * TsuruYamlKubernetesGroup)),
    (forall gi, Groups y = Some gi -> ranges gi order) ->
    DeepCopy y order = y.
Proof.
  intros [[gi |]] order Ho; unfold DeepCopy, DeepCopyInto; simpl; [| reflexivity].
  rewrite (copy_entries_ranges gi order (Ho gi eq_refl)).
  rewrite (right_id_L ∅ (∪)). reflexivity.
Qed.

Lemma deep_copy_equals_receiver_witness :
  let a := mkProcessConfig [mkPortConfig "http" "TCP" 80 8080] in
  let y := mkKubernetesConfig (Some {["pod1" := {["web" := a]}]}) in
  DeepCopy y [("pod1", {["web" := a]})] = y.
Proof.
  intros a y.
  apply (deep_copy_equals_receiver y).
  intros gi Hgi. inversion Hgi; subst.
  unfold ranges. rewrite map_to_list_singleton. reflexivity.
Defined.

(** X17.  [DeepCopyInto] merges, it does not replace.  With a nil [Groups]
    in the receiver, [out] is left as it is; otherwise [out.Groups] ends up
    with every entry of the receiver, plus the entries [out] already had
    under keys the receiver does not have; copying a second time changes
    nothing. *)
Theorem deep_copy_into_merges_into_target :
  forall (y out : TsuruYamlKubernetesConfig)
         (order : list (string * TsuruYamlKubernetesGroup)),
    (forall gi, Groups y = Some gi -> ranges gi order) ->
    (Groups y = None -> DeepCopyInto y out order = out) /\
    (forall gi, Groups y = Some gi ->
                Groups (DeepCopyInto y out order) = Some (gi ∪ default ∅ (Groups out)) /\
                (forall k, gi !! k = None ->
                           default ∅ (Groups (DeepCopyInto y out order)) !! k
                           = default ∅ (Groups out) !! k)) /\
    DeepCopyInto y (DeepCopyInto y out order) order = DeepCopyInto y out order.
Proof.
  intros [[gi |]] out order Ho; unfold DeepCopyInto; simpl.
  - pose proof (Ho gi eq_refl) as Hr.
    split; [discriminate |]. split.
    + intros gi' Hgi. inversion Hgi; subst gi'.
      assert (Hmade : match Groups out with Some g => g | None => ∅ end
                      = default ∅ (Groups out)) by (destruct (Groups out); reflexivity).
      rewrite Hmade, (copy_entries_ranges gi order Hr). split; [reflexivity |].
      intros k Hk. simpl. rewrite lookup_union, Hk.
      destruct (default ∅ (Groups out) !! k); reflexivity.
    + rewrite !(copy_entries_ranges gi order Hr).
      rewrite (assoc_L (∪)), (idemp_L (∪)). reflexivity.
  - split; [reflexivity |]. split; [discriminate | reflexivity].
Qed.

Lemma deep_copy_into_merges_into_target_witness :
  let a := mkProcessConfig [mkPortConfig "http" "TCP" 80 8080] in
  let b := mkProcessConfig [mkPortConfig "http" "TCP" 80 9090] in
  let y := mkKubernetesConfig (Some {["pod1" := {["web" := a]}]}) in
  let out := mkKubernetesConfig (Some {["pod2" := {["web" := b]}]}) in
  Groups (DeepCopyInto y out [("pod1", {["web" := a]})])
  = Some (<["pod1" := {["web" := a]}]> {["pod2" := {["web" := b]}]}).
Proof.
  intros a b y out.
  destruct (deep_copy_into_merges_into_target y out [("pod1", {["web" := a]})])
    as (_ & Hmerge & _).
  - intros gi Hgi. inversion Hgi; subst.
    unfold ranges. rewrite map_to_list_singleton. reflexivity.
  - destruct (Hmerge _ eq_refl) as [Hg _]. rewrite Hg. f_equal.
Defined.

End YamlData.

(** * Running programs over the calls of a package *)

Section RunningFree.

Context {Op : Type} {Ans : Op -> Type} {W : Type} (h : forall o : Op, W -> Ans o * W).

Lemma frun_bind {A B : Type} (p : Free Op Ans A) (f : A -> Free Op Ans B) (w : W) :
  frun h (fbind p f) w =
  match frun h p w with
  | (Done a, w1, t1) =>
      let '(o, w2, t2) := frun h (f a) w1 in (o, w2, t1 ++ t2)
  | (Panicked m, w1, t1) => (Panicked m, w1, t1)
  end.
Proof.
  revert w. induction p as [a | m | o k IH]; intros w; simpl.
  - destruct (frun h (f a) w) as [[r w2] t2]. reflexivity.
  - reflexivity.
  - destruct (h o w) as [r w1]. rewrite IH.
    destruct (frun h (k r) w1) as [[[a | m] w2] t1]; [| reflexivity].
    destruct (frun h (f a) w2) as [[r' w3] t2]. reflexivity.
Qed.

Lemma frun_Do {A : Type} (o : Op) (k : Ans o -> Free Op Ans A) (w : W) :
  frun h (Do o k) w =
  let '(r, w1) := h o w in
  let '(res, w2, t) := frun h (k r) w1 in (res, w2, did o r :: t).
Proof. reflexivity. Qed.

Lemma frun_Do_inv {A : Type} (o : Op) (k : Ans o -> Free Op Ans A) (w : W) res w' t :
  frun h (Do o k) w = (res, w', t) ->
  exists r w1 t1,
    h o w = (r, w1) /\ t = did o r :: t1 /\ frun h (k r) w1 = (res, w', t1).
Proof.
  simpl. destruct (h o w) as [r w1].
  destruct (frun h (k r) w1) as [[res1 w2] t1] eqn:E.
  intros H. inversion H; subst. exists r, w1, t1. auto.
Qed.

End RunningFree.

(** Case analysis of a run along the calls the program makes. *)
Ltac frun_inv :=
  repeat match goal with
  | H : frun _ (Pure _) _ = _ |- _ => simpl in H; inversion H; subst; clear H
  | H : frun _ (Fail _) _ = _ |- _ => simpl in H; inversion H; subst; clear H
  | H : frun _ (Do _ _) _ = _ |- _ =>
      apply frun_Do_inv in H;
      let r := fresh "r" in
      let w := fresh "w" in
      let t := fresh "t" in
      let Hh := fresh "Hh" in
      destruct H as (r & w & t & Hh & -> & H); cbn -[frun String.eqb String.prefix] in r, H
  | H : frun _ (perform _) _ = _ |- _ => unfold perform in H
  | H : frun _ (fbind _ _) _ = _ |- _ => progress cbn -[frun String.eqb String.prefix] in H
  | H : frun _ ?p _ = _ |- _ =>
      match p with
      | context [match ?x with _ => _ end] => is_var x; destruct x
      end
  end.

(** * The connection to the database *)

Section Storage.

Import storagev2.

Lemma setDefault_lookup (key value : string) (q : Values) (k : string) :
  setDefault key value q !! k =
  if decide (k = key)
  then Some (match q !! k with Some x => x | None => [value] end)
  else q !! k.
Proof.
  unfold setDefault, Has, Set_.
  destruct (decide (k = key)) as [-> | Hne].
  - destruct (q !! key) as [x |] eqn:E.
    + rewrite bool_decide_eq_true_2 by eauto. simpl. rewrite E. reflexivity.
    + rewrite bool_decide_eq_false_2 by (intros [? ?]; discriminate).
      simpl. apply lookup_insert_eq.
  - destruct (bool_decide (is_Some (q !! key))); simpl; [reflexivity |].
    apply lookup_insert_ne. congruence.
Qed.

(** X18.  Whatever is configured, the URL [dbConfig] hands to the parser
    starts with [mongodb://]: an unset URL becomes the default one, a URL
    with the prefix is kept, and any other value, a [mongodb+srv://] URL
    included, gets [mongodb://] put in front of it. *)
Theorem dbConfig_url_always_starts_with_mongodb :
  forall (W : Type) (h : forall o : Op, W -> Ans o * W) (w w1 w' : W) (c : string)
         res t,
    h (ConfigGetString "database:url") w = (c, w1) ->
    frun h dbConfig w = (res, w', t) ->
    exists (u : string) (more : list Op),
      calls t = ConfigGetString "database:url" :: UrlParse u :: more /\
      String.prefix "mongodb://" u = true /\
      (c = "" -> u = DefaultDatabaseURL) /\
      (String.prefix "mongodb://" c = true -> u = c) /\
      (c <> "" -> String.prefix "mongodb://" c = false -> u = String.append "mongodb://" c).
Proof.
  intros W h w w1 w' c res t Hc H.
  unfold dbConfig, ask in H. cbn -[frun String.eqb String.prefix] in H.
  apply frun_Do_inv in H. destruct H as (r & w0 & t0 & Hh & -> & H).
  rewrite Hc in Hh. inversion Hh; subst r w0. clear Hh.
  cbn -[frun String.eqb String.prefix] in H.
  apply frun_Do_inv in H. destruct H as (r & w2 & t1 & Hh & -> & _).
  eexists _, (calls t1). split; [reflexivity |].
  destruct (String.eqb_spec c "") as [-> | Hne].
  - repeat split; intros; try reflexivity; try discriminate; congruence.
  - destruct (String.prefix "mongodb://" c) eqn:Hp; simpl;
      repeat split; intros; try reflexivity; try assumption; try discriminate;
      try congruence.
  destruct c; reflexivity.
Qed.

Lemma dbConfig_url_always_starts_with_mongodb_witness :
  let w := simdb.mkWorld "mongodb+srv://db.example.com" "" true true true true 0 in
  exists res w' t more,
    frun simdb.handler dbConfig w = (res, w', t) /\
    calls t = ConfigGetString "database:url"
              :: UrlParse "mongodb://mongodb+srv://db.example.com" :: more.
Proof.
  intros w.
  destruct (dbConfig_url_always_starts_with_mongodb
              simdb.World simdb.handler w w _ "mongodb+srv://db.example.com" _ _
              ltac:(reflexivity) ltac:(vm_compute; reflexivity))
    as (u & more & Hcalls & _ & _ & _ & Hadd).
  rewrite (Hadd ltac:(discriminate) ltac:(reflexivity)) in Hcalls.
  eexists _, _, _, more. split; [vm_compute; reflexivity | exact Hcalls].
Defined.

(** X19.  A successful [dbConfig] makes four calls: it reads the URL,
    parses it, renders it, reads the database name.  The URL it renders is
    the parsed one with an empty path replaced by [/] and with each of the
    seven connection parameters added under its default value when the URL
    did not set it; a parameter the URL sets, and every other parameter, is
    left as it is.  The database name returned is the configured one, or
    [tsuru] when none is configured, and is never empty. *)
Theorem dbConfig_adds_defaults_without_overriding :
  forall (W : Type) (h : forall o : Op, W -> Ans o * W) (w w' : W)
         (rendered dbname : string) t,
    frun h dbConfig w = (Done (rendered, dbname), w', t) ->
    exists (c u name : string) (parsed final : URL),
      t = [@did Op Ans (ConfigGetString "database:url") c;
           @did Op Ans (UrlParse u) (Some parsed);
           @did Op Ans (UrlString final) rendered;
           @did Op Ans (ConfigGetString "database:name") name] /\
      Rest final = Rest parsed /\
      Path final = (if String.eqb (Path parsed) "" then "/" else Path parsed) /\
      Path final <> "" /\
      (forall key value, In (key, value) queryDefaults ->
         Query final !! key
         = Some (match Query parsed !! key with Some x => x | None => [value] end)) /\
      (forall key, ~ In key (map fst queryDefaults) ->
         Query final !! key = Query parsed !! key) /\
      dbname = (if String.eqb name "" then DefaultDatabaseName else name) /\
      dbname <> "".
Proof.
  intros W h w w' rendered dbname t H.
  unfold dbConfig, ask in H. cbn -[frun String.eqb String.prefix] in H.
  frun_inv.
  eexists _, _, _, _, _. split; [reflexivity |]. cbn [Rest Path Query].
  split; [reflexivity |]. split; [reflexivity |].
  split; [destruct (String.eqb_spec (Path u) ""); [discriminate | assumption] |].
  split; [| split; [| split]].
  - intros key value Hin. rewrite !setDefault_lookup.
    simpl in Hin.
    repeat destruct Hin as [Hin | Hin]; try contradiction; inversion Hin; subst;
      repeat (case_decide; try discriminate; try congruence).
  - intros key Hnot. rewrite !setDefault_lookup.
    simpl in Hnot.
    repeat (case_decide; [exfalso; apply Hnot; subst; auto 10 |]).
    reflexivity.
  - reflexivity.
  - destruct (String.eqb_spec r1 ""); [discriminate | assumption].
Qed.

Lemma dbConfig_adds_defaults_without_overriding_witness :
  exists w' t,
    frun simdb.handler dbConfig simdb.fresh
    = (Done ("mongodb://127.0.0.1:27017/", "tsuru"), w', t) /\
    length t = 4%nat.
Proof.
  destruct (dbConfig_adds_defaults_without_overriding
              simdb.World simdb.handler simdb.fresh _ _ _ _
              ltac:(vm_compute; reflexivity))
    as (c & u & name & parsed & final & Ht & _).
  eexists _, _. split; [vm_compute; reflexivity |]. reflexivity.
Defined.

(** X20.  [Collection] panics only while no connection is stored and the
    configured URL does not parse: [dbConfig] dereferences the nil result of
    [url.Parse], after two calls, and nothing is dialled. *)
Theorem collection_panics_only_on_unparsable_url :
  forall (W : Type) (h : forall o : Op, W -> Ans o * W) (w w' : W) (s : State)
         (name m : string) t,
    frun h (Collection name s) w = (Panicked m, w', t) ->
    (client s = None \/ databaseNamePtr s = None) /\
    exists (c u : string),
      t = [@did Op Ans (ConfigGetString "database:url") c; @did Op Ans (UrlParse u) None].
Proof.
  intros W h w w' s name m t H.
  unfold Collection, database, connect, dbConfig, ask in H.
  destruct s as [[c0 |] [n0 |]]; cbn -[frun String.eqb String.prefix] in H.
  - discriminate.
  - frun_inv; try discriminate; simpl; eauto.
  - frun_inv; try discriminate; simpl; eauto.
  - frun_inv; try discriminate; simpl; eauto.
Qed.

Lemma collection_panics_only_on_unparsable_url_witness :
  let w := simdb.mkWorld "mongodb://%zz" "" false true true true 0 in
  exists m t,
    frun simdb.handler (Collection "jobs" (mkState None None)) w = (Panicked m, w, t) /\
    length t = 2%nat.
Proof.
  intros w.
  destruct (collection_panics_only_on_unparsable_url
              simdb.World simdb.handler w w (mkState None None) "jobs" _ _
              ltac:(vm_compute; reflexivity))
    as (_ & c & u & Ht).
  eexists _, _. split; [vm_compute; reflexivity | reflexivity].
Defined.

Ltac storage_inv H :=
  unfold Collection, database, connect, dbConfig, ask in H;
  cbn -[frun String.eqb String.prefix] in H;
  frun_inv.

(** X21.  After [Reset], whatever was stored before, a successful
    [database] makes seven calls in this order: the four of [dbConfig], the
    connection to the rendered URL, the ping of the new client, and the
    creation of the indexes on the configured database with that client;
    the client and the name are then stored. *)
Theorem database_after_reset_connects_pings_and_indexes :
  forall (W : Type) (h : forall o : Op, W -> Ans o * W) (w w' : W) (s s' : State)
         (db : Client * string) t,
    frun h (database (Reset s)) w = (Done (inl db, s'), w', t) ->
    exists (u uri : string) (final : URL),
      calls t = [ConfigGetString "database:url"; UrlParse u; UrlString final;
                 ConfigGetString "database:name"; MongoConnect uri;
                 Ping (fst db); EnsureIndexesCreated (fst db) (snd db)] /\
      s' = mkState (Some (fst db)) (Some (snd db)).
Proof.
  intros W h w w' s s' db t H. unfold Reset in H.
  storage_inv H; try discriminate.
  cbn -[String.eqb String.prefix]. eauto.
Qed.

Lemma database_after_reset_connects_pings_and_indexes_witness :
  exists w' t,
    frun simdb.handler (database (Reset (mkState (Some 7%nat) (Some "old")))) simdb.fresh
    = (Done (inl (0%nat, "tsuru"), mkState (Some 0%nat) (Some "tsuru")), w', t) /\
    length t = 7%nat.
Proof.
  destruct (database_after_reset_connects_pings_and_indexes
              simdb.World simdb.handler simdb.fresh _ (mkState (Some 7%nat) (Some "old"))
              _ _ _ ltac:(vm_compute; reflexivity))
    as (u & uri & final & _ & Hs).
  eexists _, _. split; [vm_compute; reflexivity | reflexivity].
Defined.

(** X22.  A successful [database] is remembered.  Starting from package
    variables that do not hold a client without a name, the client and the
    name returned are the ones stored afterwards, and from then on
    [database] and [Collection] make no call and return that same handle. *)
Theorem database_success_is_remembered :
  forall (W : Type) (h : forall o : Op, W -> Ans o * W) (w w' : W) (s s' : State)
         (db : Client * string) t,
    client s = None \/ databaseNamePtr s <> None ->
    frun h (database s) w = (Done (inl db, s'), w', t) ->
    s' = mkState (Some (fst db)) (Some (snd db)) /\
    forall (W2 : Type) (h2 : forall o : Op, W2 -> Ans o * W2) (w2 : W2) (name : string),
      frun h2 (database s') w2 = (Done (inl db, s'), w2, []) /\
      frun h2 (Collection name s') w2 = (Done (inl (db, name), s'), w2, []).
Proof.
  intros W h w w' s s' db t Hs H.
  assert (Hs' : s' = mkState (Some (fst db)) (Some (snd db))).
  { destruct s as [[c0 |] [n0 |]]; simpl in Hs.
    - storage_inv H. reflexivity.
    - destruct Hs as [Hs | Hs]; [discriminate | contradiction].
    - storage_inv H; try discriminate. reflexivity.
    - storage_inv H; try discriminate. reflexivity. }
  split; [exact Hs' |].
  intros W2 h2 w2 name. subst s'. destruct db as [c n]. split; reflexivity.
Qed.

Lemma database_success_is_remembered_witness :
  let s' := mkState (Some 0%nat) (Some "tsuru") in
  frun simdb.handler (Collection "jobs" s') simdb.fresh
  = (Done (inl (0%nat, "tsuru", "jobs"), s'), simdb.fresh, []).
Proof.
  intros s'.
  destruct (database_success_is_remembered
              simdb.World simdb.handler simdb.fresh _ (mkState None None) _ (0%nat, "tsuru") _
              ltac:(left; reflexivity) ltac:(vm_compute; reflexivity))
    as (_ & Hnext).
  exact (proj2 (Hnext simdb.World simdb.handler simdb.fresh "jobs")).
Defined.

(** X23.  A [database] call that fails before the indexes are attempted
    leaves the package variables as they were: the error is the one of the
    connection, as it is, or the one of the ping, wrapped. *)
Theorem database_failure_before_indexes_keeps_state :
  forall (W : Type) (h : forall o : Op, W -> Ans o * W) (w w' : W) (s s' : State)
         (e : derror) t,
    frun h (database s) w = (Done (inr e, s'), w', t) ->
    (forall c n, ~ In (EnsureIndexesCreated c n) (calls t)) ->
    s' = s /\
    ((exists uri, In (@did Op Ans (MongoConnect uri) (inr e)) t) \/
     (exists c cause, e = Wrap cause "failed to ping mongodb" /\
                      In (@did Op Ans (Ping c) (Some cause)) t)).
Proof.
  intros W h w w' s s' e t H Hno.
  destruct s as [[c0 |] [n0 |]]; storage_inv H; try discriminate.
  all: try (exfalso; eapply Hno; cbn -[String.eqb String.prefix]; eauto 10; fail).
  all: split; [reflexivity |].
  all: first [ left; eexists; cbn -[String.eqb String.prefix]; eauto 10; fail
             | right; eexists _, _; split; [reflexivity |];
               cbn -[String.eqb String.prefix]; eauto 10 ].
Qed.

Lemma database_failure_before_indexes_keeps_state_witness :
  let w := simdb.mkWorld "" "" true true false true 0 in
  exists w' t,
    frun simdb.handler (database (mkState None None)) w
    = (Done (inr (Wrap (Driver "ping timeout") "failed to ping mongodb"),
             mkState None None), w', t).
Proof.
  intros w.
  destruct (database_failure_before_indexes_keeps_state
              simdb.World simdb.handler w _ (mkState None None) _ _ _
              ltac:(vm_compute; reflexivity)) as (Hs & _).
  - intros c n Hin. vm_compute in Hin. intuition discriminate.
  - eexists _, _. vm_compute. reflexivity.
Defined.

(** X24.  A failure to create the indexes is not retried: the client was
    stored before the indexes were attempted, so the call returns the
    wrapped error, and the next [database] call makes no call at all and
    returns the handle of that client. *)
Theorem index_failure_is_not_retried :
  forall (W : Type) (h : forall o : Op, W -> Ans o * W) (w w' : W) (s s' : State)
         (e : derror) t (c : Client) (n : string),
    frun h (database s) w = (Done (inr e, s'), w', t) ->
    In (EnsureIndexesCreated c n) (calls t) ->
    (exists cause, e = Wrap cause "failed to create indexes") /\
    s' = mkState (Some c) (Some n) /\
    forall (W2 : Type) (h2 : forall o : Op, W2 -> Ans o * W2) (w2 : W2),
      frun h2 (database s') w2 = (Done (inl (c, n), s'), w2, []).
Proof.
  intros W h w w' s s' e t c n H Hin.
  destruct s as [[c0 |] [n0 |]]; storage_inv H; try discriminate.
  all: cbn -[String.eqb String.prefix] in Hin.
  all: repeat (destruct Hin as [Hin | Hin]; try discriminate Hin); try contradiction.
  all: inversion Hin; subst.
  all: split; [eauto |]; split; [reflexivity |]; intros; reflexivity.
Qed.

Lemma index_failure_is_not_retried_witness :
  let w := simdb.mkWorld "" "" true true true false 0 in
  let s' := mkState (Some 0%nat) (Some "tsuru") in
  exists w' t,
    frun simdb.handler (database (mkState None None)) w
    = (Done (inr (Wrap (Driver "index build failed") "failed to create indexes"), s'), w', t) /\
    frun simdb.handler (database s') w' = (Done (inl (0%nat, "tsuru"), s'), w', []).
Proof.
  intros w s'.
  destruct (index_failure_is_not_retried
              simdb.World simdb.handler w _ (mkState None None) _ _ _ 0%nat "tsuru"
              ltac:(vm_compute; reflexivity) ltac:(vm_compute; auto 10))
    as (_ & Hs & Hnext).
  eexists _, _. split; [vm_compute; reflexivity |].
  apply Hnext.
Defined.

End Storage.

(** * Login and logout *)

Section Cmd.

Import cmd.

Ltac cmd_inv H :=
  unfold login_Run, login_Info, getScheme, schemeInfo, nativeLogin, logout_Run,
    passwordFromReader, checked, ask in H;
  cbn -[frun String.eqb String.append Nat.eqb passwordJSON] in H;
  frun_inv.

(** X25.  [getScheme] asks the server at most once.  It never fails: the
    scheme it returns is stored in the receiver, and is the stored one, with
    no call made, when the receiver already holds one; when the discovery
    fails at any step the scheme is [native] with no data, and that answer
    is stored like any other, so the server is not asked again. *)
Theorem scheme_is_discovered_once :
  forall (W : Type) (h : forall o : Op, W -> Ans o * W) (w w' : W) (c : login) res t,
    frun h (getScheme c) w = (res, w', t) ->
    exists s : loginScheme,
      res = Done (s, mkLogin (Some s)) /\
      (forall known, scheme c = Some known -> s = known /\ t = []) /\
      ((forall b i, ~ In (@did Op Ans (DecodeScheme b) (inl i)) t) ->
       scheme c = None -> s = mkScheme "native" ∅) /\
      (forall (W2 : Type) (h2 : forall o : Op, W2 -> Ans o * W2) (w2 : W2),
          frun h2 (getScheme (mkLogin (Some s))) w2 = (Done (s, mkLogin (Some s)), w2, [])).
Proof.
  intros W h w w' [[known |]] res t H.
  - cmd_inv H. exists known. split; [reflexivity |].
    split; [intros k Hk; inversion Hk; auto |].
    split; [intros _ Hn; discriminate | reflexivity].
  - cmd_inv H.
    all: eexists; split; [reflexivity |].
    all: split; [intros k Hk; discriminate |].
    all: split; [| reflexivity].
    all: intros Hno _; try reflexivity.
    exfalso. eapply Hno. simpl. eauto.
Qed.

Lemma scheme_is_discovered_once_witness :
  let w := simcli.mkWorld false (mkScheme "oauth" ∅) "secret" true None false None [] in
  exists w' t,
    frun simcli.handler (getScheme (mkLogin None)) w
    = (Done (mkScheme "native" ∅, mkLogin (Some (mkScheme "native" ∅))), w', t).
Proof.
  intros w.
  destruct (scheme_is_discovered_once
              simcli.World simcli.handler w _ (mkLogin None) _ _
              ltac:(vm_compute; reflexivity)) as (s & Hres & _ & Hnative & _).
  eexists _, _. vm_compute. reflexivity.
Defined.

(** X26.  [Info] of [login] asks for no argument exactly when the scheme is
    [oauth], and for one argument, the email, with any other scheme, the
    fallback included; the command is named [login] in both cases, and the
    scheme the answer was computed from is stored in the receiver. *)
Theorem login_needs_no_argument_iff_oauth :
  forall (W : Type) (h : forall o : Op, W -> Ans o * W) (w w' : W) (c c' : login)
         (i : Info) t,
    frun h (login_Info c) w = (Done (i, c'), w', t) ->
    exists s : loginScheme,
      scheme c' = Some s /\
      InfoName i = "login" /\
      (Name s = "oauth" -> MinArgs i = 0%Z /\ Usage i = "login") /\
      (Name s <> "oauth" -> MinArgs i = 1%Z /\ Usage i = "login <email>").
Proof.
  intros W h w w' [[known |]] c' i t H; cmd_inv H.
  all: eexists; split; [reflexivity |]; split; [reflexivity |].
  all: cbn [MinArgs Usage].
  all: try match goal with
           | |- context [String.eqb ?a ?b] => destruct (String.eqb_spec a b)
           end.
  all: split; intros Hn; try contradiction; try discriminate; auto.
Qed.

Lemma login_needs_no_argument_iff_oauth_witness :
  let w := simcli.mkWorld true (mkScheme "oauth" ∅) "secret" true None false None [] in
  exists w' t,
    frun simcli.handler (login_Info (mkLogin None)) w
    = (Done (mkInfo "login" "login" "log in with your credentials." 0,
             mkLogin (Some (mkScheme "oauth" ∅))), w', t).
Proof.
  intros w.
  destruct (login_needs_no_argument_iff_oauth
              simcli.World simcli.handler w _ (mkLogin None) _ _ _
              ltac:(vm_compute; reflexivity)) as (s & _).
  eexists _, _. vm_compute. reflexivity.
Defined.

(** X27.  [Run] of [logout] always tries to remove the token file, whether
    or not the server could be told.  It fails, with "You're not logged
    in!", only when the removal fails because the file does not exist; a
    removal that fails for any other reason is not reported: the success
    message is printed and nil is returned, as after a removal that
    worked. *)
Theorem logout_reports_only_a_missing_token_file :
  forall (W : Type) (h : forall o : Op, W -> Ans o * W) (w w' : W) res t,
    frun h logout_Run w = (res, w', t) ->
    exists (before : list (sigT Ans)) (path : string) (removal : option fserror)
           (after : list (sigT Ans)),
      t = before ++ @did Op Ans (JoinWithUserDir ".tsuru_token") path
                 :: @did Op Ans (Remove path) removal :: after /\
      (forall p, ~ In (Remove p) (calls before)) /\
      ((removal = Some NotExist /\ after = [] /\
        res = Done (Some (Err "You're not logged in!"))) \/
       (removal <> Some NotExist /\
        after = [@did Op Ans (Fprintln "Successfully logged out!") tt] /\
        res = Done None)).
Proof.
  intros W h w w' res t H. cmd_inv H.
  all: try match goal with
           | H0 : frun _ (if IsNotExist ?f then _ else _) _ = _ |- _ =>
               destruct f; cbn -[frun] in H0; frun_inv
           end.
  all: repeat match goal with u : unit |- _ => destruct u end.
  all: match goal with
       | |- exists _ _ _ _, ?l = _ /\ _ =>
           match l with
           | [?a; ?b; ?c; ?d; ?e] => exists [a; b; c]
           | [?a; ?b; ?c; ?d; ?e; ?f] => exists [a; b; c]
           | [?a; ?b; ?c] => exists [a]
           | [?a; ?b; ?c; ?d] => exists [a]
           end
       end.
  all: eexists _, _, _; split; [reflexivity |].
  all: split; [intros p Hin; cbn in Hin; intuition discriminate |].
  all: first [ left; repeat split; reflexivity
             | right; repeat split; try reflexivity; discriminate ].
Qed.

Lemma logout_reports_only_a_missing_token_file_witness :
  let w := simcli.mkWorld false (mkScheme "native" ∅) "" true None true (Some "t0k3n") [] in
  exists t,
    frun simcli.handler logout_Run w
    = (Done None, simcli.print "Successfully logged out!" w, t) /\
    simcli.stored (simcli.print "Successfully logged out!" w) = Some "t0k3n".
Proof.
  intros w.
  destruct (logout_reports_only_a_missing_token_file
              simcli.World simcli.handler w _ _ _
              ltac:(vm_compute; reflexivity)) as (before & path & removal & after & _).
  eexists. split; [vm_compute; reflexivity | reflexivity].
Defined.

(** X28.  [passwordFromReader] returns a password or an error, never
    both and never neither: the password returned without error is not
    empty, and an error comes with the empty string.  Only an [*os.File] is
    asked whether it is a terminal. *)
Theorem password_is_never_empty :
  forall (W : Type) (h : forall o : Op, W -> Ans o * W) (w w' : W) (reader : Reader)
         res t,
    frun h (passwordFromReader reader) w = (res, w', t) ->
    exists (password : string) (err : option cerror),
      res = Done (password, err) /\
      (err = None -> password <> EmptyString) /\
      (err <> None -> password = EmptyString) /\
      (forall id, reader = NotAFile id -> calls t = [Fscanf reader]).
Proof.
  intros W h w w' reader res t H.
  destruct reader as [fd | id]; cmd_inv H.
  all: repeat match goal with
              | H0 : frun _ (if Nat.eqb (String.length ?p) 0 then _ else _) _ = _ |- _ =>
                  destruct p; cbn in H0; inversion H0; subst; clear H0
              end.
  all: eexists _, _; split; [reflexivity |].
  all: split; [intros He; try discriminate He; discriminate |].
  all: split; [intros He; try reflexivity; exfalso; apply He; reflexivity |].
  all: intros id' Hid; try discriminate Hid; reflexivity.
Qed.

Lemma password_is_never_empty_witness :
  let w := simcli.mkWorld true (mkScheme "native" ∅) "" false None false None [] in
  frun simcli.handler (passwordFromReader (NotAFile 0)) w
  = (Done (EmptyString, Some (Err "You must provide the password!")), w,
     [@did Op Ans (Fscanf (NotAFile 0)) EmptyString]).
Proof.
  intros w.
  destruct (password_is_never_empty
              simcli.World simcli.handler w _ (NotAFile 0) _ _
              ltac:(vm_compute; reflexivity)) as (password & err & _).
  vm_compute. reflexivity.
Defined.






End Cmd.
